(** * A priority-ordered task store with dependency-gated eligibility

    Shallow embedding of [examen2parcial.py] (class [TaskManager]) and of
    the three [heapq] routines it calls ([heappush], [heappop],
    [heapify], transcribed from CPython's [heapq.py]).

    - Python objects that are mutated in place (the list [self.tasks], the
      set [self.completed_tasks], the backing file, the terminal) are the
      fields of one record that every operation threads through.
    - A call either returns a value or raises; in both cases it leaves a
      state behind, because a Python exception does not undo the writes
      made before it: [res A * state].
    - Names and due dates are strings of code points below 256; a
      priority that passed [isinstance(priority, int)] is kept as the
      integer it denotes.
    - [json] and the file system are not transcribed: the file either is
      absent, or holds text that does not decode, or a JSON value that is
      not an object, or an object with the two keys of [save_tasks]
      (either may be missing). Writing never fails.
    - [print] appends a line to the terminal; the lines keep the values
      that the f-strings format. *)

From Stdlib Require Import ZArith ZifyNat Ascii String.
From stdpp Require Import base decidable list strings gmap sorting.

(** ** Python values and exceptions *)

(** The values a caller hands to [add_task] as [priority]. A float is
    kept as mantissa and binary exponent: only its type matters here. *)
Inductive pyobj :=
| PyNone
| PyBool (b : bool)
| PyInt (z : Z)
| PyFloat (mantissa exponent : Z)
| PyStr (s : string).

Inductive exn :=
| ValueError
| TypeError
| IndexError
| AttributeError
| JSONDecodeError.

Inductive res (A : Type) :=
| Ret (a : A)
| Raise (e : exn).
Arguments Ret {A} a.
Arguments Raise {A} e.

(** [isinstance(priority, int)]: [bool] is a subclass of [int]. *)
Definition isinstance_int (v : pyobj) : bool :=
  match v with
  | PyInt _ | PyBool _ => true
  | _ => false
  end.

(** The integer an [int] instance denotes ([True == 1], [False == 0]);
    comparisons and equality of priorities only see this number. *)
Definition int_value (v : pyobj) : Z :=
  match v with
  | PyInt z => z
  | PyBool true => 1%Z
  | _ => 0%Z
  end.

(** ** Strings: [str.strip()] *)

(** Characters are the code points below 256; these are the ones for
    which [str.isspace()] holds. *)
Definition isspace (c : ascii) : bool :=
  let n := nat_of_ascii c in
  ((9 <=? n) && (n <=? 13) || (28 <=? n) && (n <=? 32)
   || (n =? 133) || (n =? 160)).

Fixpoint lstrip (s : string) : string :=
  match s with
  | EmptyString => EmptyString
  | String c s' => if isspace c then lstrip s' else s
  end.

Fixpoint rstrip (s : string) : string :=
  match s with
  | EmptyString => EmptyString
  | String c s' =>
      match rstrip s' with
      | EmptyString => if isspace c then EmptyString else String c EmptyString
      | r => String c r
      end
  end.

Definition strip (s : string) : string := rstrip (lstrip s).

(** Truth value of a string: the empty string is false. *)
Definition truthy (s : string) : bool :=
  match s with
  | EmptyString => false
  | _ => true
  end.

(** ** Tasks and heap entries *)

(** The dict built by [add_task]. *)
Record task := Task {
  name : string;
  priority : Z;
  dependencies : list string;
  due_date : option string
}.

(** A heap entry is the pair [(priority, task)]. [add_task] and the
    rebuild of [complete_task] make tuples; [json.load] gives back lists.
    Python orders a tuple against a tuple and a list against a list, never
    one against the other. *)
Inductive seqtype := TupleT | ListT.

Record entry := Entry {
  container : seqtype;
  eprio : Z;
  etask : task
}.

Global Instance seqtype_eq_dec : EqDecision seqtype.
Proof. solve_decision. Defined.
Global Instance task_eq_dec : EqDecision task.
Proof. solve_decision. Defined.
Global Instance entry_eq_dec : EqDecision entry.
Proof. solve_decision. Defined.
Global Instance exn_eq_dec : EqDecision exn.
Proof. solve_decision. Defined.

(** [a < b] on two entries. Sequences compare item by item: the first
    pair of items that are not [==] decides. Priorities are integers;
    when they are equal the two dicts are next, and dicts that are not
    equal have no order. Two entries equal in both items are not [<]. *)
Definition entry_lt (a b : entry) : res bool :=
  if bool_decide (container a = container b) then
    if bool_decide (eprio a = eprio b) then
      if bool_decide (etask a = etask b) then Ret false
      else Raise TypeError
    else Ret (eprio a <? eprio b)%Z
  else Raise TypeError.

(** ** heapq *)

(** The routines of [heapq.py], on a list of entries. Each works in place:
    it returns the list it leaves, also when a comparison raises in the
    middle of a sift. An index is read before it is written, so an
    assignment [heap[i] = x] never falls outside the list. (CPython
    normally runs the C version of these routines, which makes the same
    comparisons in the same order and returns the same lists; it swaps
    where [heapq.py] holds [newitem] aside, so only the list left behind
    by a comparison that raises can differ.) *)
Module heapq.

(** [_siftdown(heap, startpos, pos)], the loop after
    [newitem = heap[pos]]. The position strictly decreases, so [pos]
    itself bounds the number of iterations. *)
Fixpoint _siftdown_loop (fuel : nat) (heap : list entry) (newitem : entry)
    (startpos pos : nat) : res unit * list entry :=
  match fuel with
  | O => (Ret tt, <[pos := newitem]> heap)
  | S fuel' =>
      if decide (startpos < pos) then
        let parentpos := ((pos - 1) / 2) in
        match heap !! parentpos with
        | None => (Raise IndexError, heap)
        | Some parent =>
            match entry_lt newitem parent with
            | Raise e => (Raise e, heap)
            | Ret true =>
                _siftdown_loop fuel' (<[pos := parent]> heap) newitem
                  startpos parentpos
            | Ret false => (Ret tt, <[pos := newitem]> heap)
            end
        end
      else (Ret tt, <[pos := newitem]> heap)
  end.

Definition _siftdown (heap : list entry) (startpos pos : nat)
    : res unit * list entry :=
  match heap !! pos with
  | None => (Raise IndexError, heap)
  | Some newitem => _siftdown_loop pos heap newitem startpos pos
  end.

(** [not heap[childpos] < heap[rightpos]], guarded by
    [rightpos < endpos] (the [and] short-circuits). *)
Definition right_is_smaller (heap : list entry) (endpos childpos : nat)
    : res bool :=
  let rightpos := (childpos + 1) in
  if decide (rightpos < endpos) then
    match heap !! childpos, heap !! rightpos with
    | Some l, Some r =>
        match entry_lt l r with
        | Ret b => Ret (negb b)
        | Raise e => Raise e
        end
    | _, _ => Raise IndexError
    end
  else Ret false.

(** [_siftup(heap, pos)], the loop that bubbles the smaller child up;
    it returns the leaf position where the loop stops. The position
    strictly increases and stays below [endpos]. *)
Fixpoint _siftup_loop (fuel : nat) (heap : list entry) (endpos pos : nat)
    : res nat * list entry :=
  match fuel with
  | O => (Ret pos, heap)
  | S fuel' =>
      let childpos := (2 * pos + 1) in
      if decide (childpos < endpos) then
        match right_is_smaller heap endpos childpos with
        | Raise e => (Raise e, heap)
        | Ret take_right =>
            let childpos := if take_right then (childpos + 1) else childpos in
            match heap !! childpos with
            | None => (Raise IndexError, heap)
            | Some child =>
                _siftup_loop fuel' (<[pos := child]> heap) endpos childpos
            end
        end
      else (Ret pos, heap)
  end.

Definition _siftup (heap : list entry) (pos : nat) : res unit * list entry :=
  let endpos := length heap in
  match heap !! pos with
  | None => (Raise IndexError, heap)
  | Some newitem =>
      match _siftup_loop endpos heap endpos pos with
      | (Raise e, heap') => (Raise e, heap')
      | (Ret leaf, heap') => _siftdown (<[leaf := newitem]> heap') pos leaf
      end
  end.

Definition heappush (heap : list entry) (item : entry)
    : res unit * list entry :=
  let heap := heap ++ [item] in
  _siftdown heap 0 (length heap - 1).

(** [heap.pop()] splits off the last element. *)
Definition heappop (heap : list entry) : res entry * list entry :=
  match last heap with
  | None => (Raise IndexError, heap)
  | Some lastelt =>
      let heap := removelast heap in
      match heap with
      | [] => (Ret lastelt, heap)
      | returnitem :: _ =>
          match _siftup (<[0 := lastelt]> heap) 0 with
          | (Raise e, heap') => (Raise e, heap')
          | (Ret _, heap') => (Ret returnitem, heap')
          end
      end
  end.

(** [for i in reversed(range(n//2)): _siftup(x, i)] *)
Fixpoint heapify_from (idxs : list nat) (x : list entry)
    : res unit * list entry :=
  match idxs with
  | [] => (Ret tt, x)
  | i :: idxs' =>
      match _siftup x i with
      | (Raise e, x') => (Raise e, x')
      | (Ret _, x') => heapify_from idxs' x'
      end
  end.

Definition heapify (x : list entry) : res unit * list entry :=
  let n := length x in
  heapify_from (rev (seq 0 (n / 2))) x.

End heapq.

(** ** The task manager *)

(** What the backing file holds: text that [json.load] rejects, a JSON
    value other than an object (an array, a number, a string, [true],
    [false], [null]: none has a [get] method), or a JSON object.
    [data.get(key, [])] makes either key optional; a key that is present
    holds what [save_tasks] writes there, a sequence of [[priority, task]]
    pairs and a sequence of names. *)
Inductive file :=
| Undecodable
| NotAnObject
| Json (tasks_key : option (list (Z * task)))
       (completed_tasks_key : option (list string)).

(** What the operations print. *)
Inductive line :=
| TaskLine (task_name : string) (prio : Z) (due : option string)
           (deps : list string)
| NotFound (task_name : string)
| Blocked
| NoPending.

(** [self.tasks], [self.completed_tasks], the content of the file named
    [self.filename] ([None] when it does not exist) and the terminal. *)
Record state := State {
  tasks : list entry;
  completed_tasks : gset string;
  disk : option file;
  stdout : list line
}.

Definition set_tasks (st : state) (l : list entry) : state :=
  State l (completed_tasks st) (disk st) (stdout st).

Definition set_completed_tasks (st : state) (c : gset string) : state :=
  State (tasks st) c (disk st) (stdout st).

Definition print (st : state) (l : line) : state :=
  State (tasks st) (completed_tasks st) (disk st) (stdout st ++ [l]).

(** [json.dump] writes a tuple as an array; [json.load] reads an array
    as a list. *)
Definition dump_entry (e : entry) : Z * task := (eprio e, etask e).
Definition load_entry (p : Z * task) : entry := Entry ListT p.1 p.2.

Definition load_tasks (st : state) : res unit * state :=
  match disk st with
  | None => (Ret tt, st)
  | Some Undecodable => (Raise JSONDecodeError, st)
  | Some NotAnObject => (Raise AttributeError, st)
  | Some (Json tasks_key completed_tasks_key) =>
      let st := set_tasks st (load_entry <$> default [] tasks_key) in
      let st :=
        set_completed_tasks st (list_to_set (default [] completed_tasks_key)) in
      match heapq.heapify (tasks st) with
      | (Raise e, heap) => (Raise e, set_tasks st heap)
      | (Ret _, heap) => (Ret tt, set_tasks st heap)
      end
  end.

(** [TaskManager(filename)]: the constructor, on a given file system and
    terminal. When it raises there is no manager. *)
Definition __init__ (d : option file) (out : list line) : res unit * state :=
  load_tasks (State [] ∅ d out).

Definition save_tasks (st : state) : state :=
  State (tasks st) (completed_tasks st)
        (Some (Json (Some (dump_entry <$> tasks st))
                    (Some (elements (completed_tasks st)))))
        (stdout st).

Definition add_task (st : state) (name : string) (priority : pyobj)
    (dependencies : option (list string)) (due_date : option string)
    : res unit * state :=
  if negb (truthy (strip name)) then (Raise ValueError, st)
  else if negb (isinstance_int priority) then (Raise ValueError, st)
  else
    let dependencies := default [] dependencies in
    let priority := int_value priority in
    let task := Task name priority dependencies due_date in
    match heapq.heappush (tasks st) (Entry TupleT priority task) with
    | (Raise e, heap) => (Raise e, set_tasks st heap)
    | (Ret _, heap) => (Ret tt, save_tasks (set_tasks st heap))
    end.

(** The key of [show_tasks]: [(x[0], x[1]["due_date"] or "")]. *)
Definition sort_key (x : entry) : Z * string :=
  (eprio x, match due_date (etask x) with
            | Some s => if truthy s then s else EmptyString
            | None => EmptyString
            end).

(** [<] on two such keys. *)
Definition key_lt (a b : Z * string) : bool :=
  if bool_decide (a.1 = b.1) then String.ltb a.2 b.2 else (a.1 <? b.1)%Z.

(** [sorted(xs, key=...)] is stable and only asks [<] of the keys: an
    element goes in front of the first one that is not smaller than it. *)
Fixpoint sorted_insert {A K} (lt : K → K → bool) (key : A → K)
    (x : A) (l : list A) : list A :=
  match l with
  | [] => [x]
  | y :: l' =>
      if lt (key y) (key x) then y :: sorted_insert lt key x l'
      else x :: l
  end.

Fixpoint sorted {A K} (lt : K → K → bool) (key : A → K) (l : list A)
    : list A :=
  match l with
  | [] => []
  | x :: l' => sorted_insert lt key x (sorted lt key l')
  end.

Definition task_line (x : entry) : line :=
  TaskLine (name (etask x)) (eprio x) (due_date (etask x))
           (dependencies (etask x)).

Definition sorted_tasks (st : state) : list entry :=
  sorted key_lt sort_key (tasks st).

Definition show_tasks (st : state) : res unit * state :=
  (Ret tt, foldl (λ st x, print st (task_line x)) st (sorted_tasks st)).

(** The [while self.tasks:] loop of [complete_task], with the locals
    [remaining_tasks] and [task_found]. Each round pops one entry, so the
    length of [self.tasks] bounds the rounds. *)
Fixpoint drain (fuel : nat) (st : state) (task_name : string)
    (remaining_tasks : list entry) (task_found : bool)
    : res (list entry * bool) * state :=
  match fuel with
  | O => (Ret (remaining_tasks, task_found), st)
  | S fuel' =>
      match tasks st with
      | [] => (Ret (remaining_tasks, task_found), st)
      | _ =>
          match heapq.heappop (tasks st) with
          | (Raise e, heap) => (Raise e, set_tasks st heap)
          | (Ret x, heap) =>
              let st := set_tasks st heap in
              if bool_decide (name (etask x) = task_name) then
                drain fuel'
                  (set_completed_tasks st ({[task_name]} ∪ completed_tasks st))
                  task_name remaining_tasks true
              else
                drain fuel' st task_name
                  (remaining_tasks ++ [Entry TupleT (eprio x) (etask x)])
                  task_found
          end
      end
  end.

(** [for task in remaining_tasks: heapq.heappush(self.tasks, task)] *)
Fixpoint restore (st : state) (remaining_tasks : list entry)
    : res unit * state :=
  match remaining_tasks with
  | [] => (Ret tt, st)
  | x :: rest =>
      match heapq.heappush (tasks st) x with
      | (Raise e, heap) => (Raise e, set_tasks st heap)
      | (Ret _, heap) => restore (set_tasks st heap) rest
      end
  end.

(** [complete_task] has no [return] statement: it returns [None]. *)
Definition complete_task (st : state) (task_name : string)
    : res pyobj * state :=
  match drain (length (tasks st)) st task_name [] false with
  | (Raise e, st) => (Raise e, st)
  | (Ret (remaining_tasks, task_found), st) =>
      let st := if negb task_found then print st (NotFound task_name) else st in
      match restore st remaining_tasks with
      | (Raise e, st) => (Raise e, st)
      | (Ret _, st) => (Ret PyNone, save_tasks st)
      end
  end.

Definition is_executable (st : state) (t : task) : bool :=
  forallb (λ dep, bool_decide (dep ∈ completed_tasks st)) (dependencies t).

(** [next_task] returns the task dict, or falls off the end ([None]). *)
Definition next_task (st : state) : res (option task) * state :=
  match tasks st with
  | x :: _ =>
      if is_executable st (etask x) then (Ret (Some (etask x)), st)
      else (Ret None, print st Blocked)
  | [] => (Ret None, print st NoPending)
  end.

(** ** Vocabulary of the statements *)

(** The store of a manager built where no file exists yet. *)
Definition fresh : state := State [] ∅ None [].

(** The names of the pending tasks, one per entry and in list order. *)
Definition pending_names (st : state) : list string :=
  (λ x, name (etask x)) <$> tasks st.

(** An entry as [complete_task] puts it back: [(priority, task)]. *)
Definition as_tuple (x : entry) : entry := Entry TupleT (eprio x) (etask x).

(** The arguments of one [add_task] call. *)
Record add_args := AddArgs {
  arg_name : string;
  arg_priority : pyobj;
  arg_dependencies : option (list string);
  arg_due_date : option string
}.

Definition add_call (st : state) (a : add_args) : res unit * state :=
  add_task st (arg_name a) (arg_priority a) (arg_dependencies a)
    (arg_due_date a).

(** A sequence of [add_task] calls, one after the other, up to the first
    one that raises. *)
Fixpoint add_all (st : state) (calls : list add_args) : res unit * state :=
  match calls with
  | [] => (Ret tt, st)
  | a :: calls' =>
      match add_call st a with
      | (Raise e, st') => (Raise e, st')
      | (Ret _, st') => add_all st' calls'
      end
  end.

(** Due dates as the listing orders them: an absent date (null, or the
    empty string that [or ""] cannot tell from it) is before every date,
    and dates are in the order of Python's [str] comparison. *)
Definition due_le (d1 d2 : option string) : Prop :=
  match d1, d2 with
  | None, _ => True
  | Some s1, None => s1 = EmptyString
  | Some s1, Some s2 => String.le s1 s2
  end.

(** Ascending by priority, then by due date. *)
Definition listing_le (x y : entry) : Prop :=
  (eprio x < eprio y)%Z
  ∨ eprio x = eprio y ∧ due_le (due_date (etask x)) (due_date (etask y)).

(** The heap invariant on priorities, for the entries whose parent is at
    index [k] or later: none is below its parent. [heapify] establishes it
    from the last parent down to the root. *)
Definition ordered_from (k : nat) (heap : list entry) : Prop :=
  ∀ j x p, 0 < j → k ≤ (j - 1) / 2 →
    heap !! j = Some x → heap !! ((j - 1) / 2) = Some p →
    (eprio p ≤ eprio x)%Z.

Definition heap_ordered (heap : list entry) : Prop := ordered_from 0 heap.

(** [ancestor s i]: index [i] is in the subtree rooted at index [s]. *)
Inductive ancestor (s : nat) : nat → Prop :=
| ancestor_self : ancestor s s
| ancestor_left p : ancestor s p → ancestor s (2 * p + 1)
| ancestor_right p : ancestor s p → ancestor s (2 * p + 2).

(** The state of the [_siftdown] loop: [newitem] is held aside and the
    slot at [pos] is stale. *)
Definition sift_inv (s pos : nat) (newitem : entry) (heap : list entry)
    : Prop :=
  ancestor s pos ∧ pos < length heap
  ∧ (∀ j x p, 0 < j → s ≤ (j - 1) / 2 → j ≠ pos → (j - 1) / 2 ≠ pos →
       heap !! j = Some x → heap !! ((j - 1) / 2) = Some p →
       (eprio p ≤ eprio x)%Z)
  ∧ (∀ c x, 0 < c → (c - 1) / 2 = pos → heap !! c = Some x →
       (eprio newitem ≤ eprio x)%Z)
  ∧ (s < pos → ∀ c x g, 0 < c → (c - 1) / 2 = pos →
       heap !! c = Some x → heap !! ((pos - 1) / 2) = Some g →
       (eprio g ≤ eprio x)%Z).

(** The state of the [_siftup] loop: the slot at [pos] is stale. Until
    the first move it is [startpos] itself; afterwards the slot holds a
    copy of what went up to its parent. *)
Definition bubble_inv (s pos : nat) (heap : list entry) : Prop :=
  ancestor s pos ∧ pos < length heap
  ∧ (pos = s ∧ ordered_from (S s) heap ∨ s < pos ∧ ordered_from s heap).

(** Entries that [<] can always order: no two have the same priority and
    all are tuples, or all are lists. *)
Definition tie_free (c : seqtype) (l : list entry) : Prop :=
  NoDup (eprio <$> l) ∧ Forall (λ x, container x = c) l.

(** The stores a driver can hold: a manager is constructed, then
    operations that return are applied to it. *)
Inductive reachable : state → Prop :=
| reach_init d out st :
    __init__ d out = (Ret tt, st) → reachable st
| reach_add_task st a st' :
    reachable st → add_call st a = (Ret tt, st') → reachable st'
| reach_complete_task st nm v st' :
    reachable st → complete_task st nm = (Ret v, st') → reachable st'
| reach_show_tasks st :
    reachable st → reachable (show_tasks st).2
| reach_next_task st :
    reachable st → reachable (next_task st).2.


(** A driver that, like [main], catches what a call raises and goes on
    with the same manager. *)
Fixpoint add_each (st : state) (calls : list add_args) : state :=
  match calls with
  | [] => st
  | a :: calls' => add_each (add_call st a).2 calls'
  end.

(** ** Readings of the specification that the code does not follow *)



(** "No sequence of [add_task] calls that return leaves two pending tasks
    of equal priority and distinct names." *)
Definition equal_priorities_unreachable : Prop :=
  ∀ calls st i j x y,
    add_all fresh calls = (Ret tt, st) →
    tasks st !! i = Some x → tasks st !! j = Some y →
    name (etask x) ≠ name (etask y) → eprio x ≠ eprio y.

(** ** Scenarios *)

Definition call (nm : string) (prio : Z) : add_args :=
  AddArgs nm (PyInt prio) None None.

Definition call_with (nm : string) (prio : Z) (deps : list string)
    (due : option string) : add_args :=
  AddArgs nm (PyInt prio) (Some deps) due.

(** One pending task. *)
Definition one_task_store : state := add_each fresh [call "A" 1].


(** Three calls that all return; the last two have the same priority. *)
Definition tied_calls : list add_args := [call "a" 1; call "b" 2; call "c" 2].
Definition tied_store : state := add_each fresh tied_calls.

(** Five calls; the second one raises at its first comparison, after
    [heappush] has appended its entry, which stays in the list. *)
Definition tied_root_store : state :=
  add_each fresh [call "b" 2; call "c" 2; call "z" 3; call "w" 4; call "v" 5].

(** A deployment that waits for its build. *)
Definition build_store : state :=
  add_each fresh [call_with "deploy" 2 ["build"] None; call "build" 1].

(** Priorities of both signs and a shared priority with and without a
    due date, added in no particular order. *)
Definition listing_calls : list add_args :=
  [call "root" (-3); call_with "dated" 5 [] (Some "2024-01-01");
   call "undated" 5; call "low" 9; call "first" (-7)].

(** A name with nothing but white space in it (or nothing at all). *)
Fixpoint blank (s : string) : bool :=
  match s with
  | EmptyString => true
  | String c s' => isspace c && blank s'
  end.

(** A first task that can never run, with a runnable one behind it. *)
Definition ghost_store : state :=
  add_each fresh [call_with "A" 1 ["ghost"] None; call "B" 2].

Definition listing_store : state := add_each fresh listing_calls.

(** ** Vocabulary of the further properties *)

(** What [json.dump] writes for a store. *)
Definition dumped (st : state) : file :=
  Json (Some (dump_entry <$> tasks st)) (Some (elements (completed_tasks st))).


(** Ascending priorities along a list. *)
Definition prio_le (x y : entry) : Prop := (eprio x ≤ eprio y)%Z.

(** Five tasks of distinct priorities, added out of order. *)
Definition shuffled_calls : list add_args :=
  [call "d" 4; call "a" 1; call "c" 3; call "b" 2; call "e" 5].
Definition shuffled_store : state := add_each fresh shuffled_calls.

(** ** The menu: [main] *)

(** *** The builtins [main] uses *)

(** White space as [int] strips it: narrower than [str.strip], which
    also takes the separators 28 to 31. *)
Definition int_isspace (c : ascii) : bool :=
  let n := nat_of_ascii c in
  ((9 <=? n) && (n <=? 13) || (n =? 32) || (n =? 133) || (n =? 160)).

Fixpoint int_lstrip (s : string) : string :=
  match s with
  | EmptyString => EmptyString
  | String c s' => if int_isspace c then int_lstrip s' else s
  end.

Fixpoint int_rstrip (s : string) : string :=
  match s with
  | EmptyString => EmptyString
  | String c s' =>
      match int_rstrip s' with
      | EmptyString =>
          if int_isspace c then EmptyString else String c EmptyString
      | r => String c r
      end
  end.

Definition digit (c : ascii) : option Z :=
  let n := nat_of_ascii c in
  if (48 <=? n) && (n <=? 57) then Some (Z.of_nat (n - 48)) else None.

(** The digits of a decimal literal: at least one, with single
    underscores allowed between two digits. The result is the value and
    the number of digits. *)
Fixpoint int_digits (s : string) (after_digit : bool) (value : Z)
    (count : nat) : option (Z * nat) :=
  match s with
  | EmptyString => if after_digit then Some (value, count) else None
  | String c s' =>
      if Ascii.eqb c "_" then
        if after_digit then int_digits s' false value count else None
      else
        match digit c with
        | Some d => int_digits s' true (10 * value + d)%Z (S count)
        | None => None
        end
  end.

(** [int(s)] for a string [s]: white space around, an optional sign, the
    digits. [int_max_str_digits] is the interpreter's limit on the number
    of digits, 0 for none (and for the interpreters that have none). *)
Definition int (int_max_str_digits : nat) (s : string) : res Z :=
  let s := int_rstrip (int_lstrip s) in
  let '(negative, digits) :=
    match s with
    | String "-" s' => (true, s')
    | String "+" s' => (false, s')
    | _ => (false, s)
    end in
  match int_digits digits false 0 0 with
  | None => Raise ValueError
  | Some (value, count) =>
      if (0 <? int_max_str_digits) && (int_max_str_digits <? count)
      then Raise ValueError
      else Ret (if negative then - value else value)%Z
  end.

(** [s.split(',')] *)
Fixpoint split_comma (s : string) : list string :=
  match s with
  | EmptyString => [EmptyString]
  | String c s' =>
      if Ascii.eqb c "," then EmptyString :: split_comma s'
      else
        match split_comma s' with
        | [] => [String c EmptyString]
        | word :: words => String c word :: words
        end
  end.

(** *** The terminal and the keyboard *)

Inductive prompt :=
| AskOption
| AskName
| AskPriority
| AskDependencies
| AskDueDate
| AskTaskName.

(** What [main] catches: what a call into the manager or [int] raises,
    and the end of the input. *)
Inductive main_exn :=
| CallError (e : exn)
| EOFError.

(** What is on the terminal: the menu, the prompts of [input], the lines
    the manager prints, and the three messages of [main] itself. *)
Inductive term_line :=
| MenuTitle
| MenuEntry (number : Z)
| Prompt (p : prompt)
| FromManager (l : line)
| NextTaskLine (t : task)
| InvalidOption
| ErrorLine (e : main_exn).

(** The local [manager], the lines not yet read from the keyboard and the
    terminal. *)
Record console := Console {
  manager : state;
  stdin : list string;
  terminal : list term_line
}.

Inductive outcome (A : Type) :=
| Done (a : A)
| Caught (e : main_exn).
Arguments Done {A} a.
Arguments Caught {A} e.

(** The statements of the [try] block: each goes on from the console the
    one before left, and the first that raises ends the block. *)
Definition io (A : Type) : Type := console → outcome A * console.

Definition io_ret {A} (a : A) : io A := λ c, (Done a, c).

Definition io_bind {A B} (m : io A) (k : A → io B) : io B :=
  λ c, match m c with
       | (Done a, c') => k a c'
       | (Caught e, c') => (Caught e, c')
       end.

Global Instance io_mret : MRet io := @io_ret.
Global Instance io_mbind : MBind io := λ A B k m, io_bind m k.

Definition echo (c : console) (l : term_line) : console :=
  Console (manager c) (stdin c) (terminal c ++ [l]).

(** [print(...)] in [main]. *)
Definition say (l : term_line) : io unit := λ c, (Done tt, echo c l).

(** [input(prompt)] writes the prompt, then reads a line. *)
Definition input (p : prompt) : io string :=
  λ c, match stdin c with
       | [] => (Caught EOFError, echo c (Prompt p))
       | answer :: rest =>
           (Done answer,
            Console (manager c) rest (terminal c ++ [Prompt p]))
       end.

Definition lift {A} (r : res A) : io A :=
  λ c, match r with
       | Ret a => (Done a, c)
       | Raise e => (Caught (CallError e), c)
       end.

(** A call of a method of [manager]; what the method prints goes to the
    terminal. *)
Definition call_manager {A} (method : state → res A * state) : io A :=
  λ c, let '(r, st) := method (manager c) in
       let printed := drop (length (stdout (manager c))) (stdout st) in
       lift r (Console st (stdin c) (terminal c ++ (FromManager <$> printed))).

(** *** [main] *)

(** [[dep.strip() for dep in dependencies if dep.strip()]] on the
    split answer. *)
Definition typed_dependencies (answer : string) : list string :=
  strip <$> List.filter (λ dep, truthy (strip dep)) (split_comma answer).

(** [input(...) or None] *)
Definition typed_due_date (answer : string) : option string :=
  if truthy answer then Some answer else None.

Inductive control := Continue | Break.

(** The body of the [try]. *)
Definition chosen (int_max_str_digits : nat) : io control :=
  answer ← input AskOption;
  choice ← lift (int int_max_str_digits answer);
  if bool_decide (choice = 1%Z) then
    name ← input AskName;
    answer ← input AskPriority;
    priority ← lift (int int_max_str_digits answer);
    answer ← input AskDependencies;
    let dependencies := typed_dependencies answer in
    answer ← input AskDueDate;
    let due_date := typed_due_date answer in
    _ ← call_manager (λ st, add_task st name (PyInt priority)
                              (Some dependencies) due_date);
    io_ret Continue
  else if bool_decide (choice = 2%Z) then
    _ ← call_manager show_tasks;
    io_ret Continue
  else if bool_decide (choice = 3%Z) then
    task_name ← input AskTaskName;
    _ ← call_manager (λ st, complete_task st task_name);
    io_ret Continue
  else if bool_decide (choice = 4%Z) then
    task ← call_manager next_task;
    match task with
    | Some t => _ ← say (NextTaskLine t); io_ret Continue
    | None => io_ret Continue
    end
  else if bool_decide (choice = 5%Z) then
    io_ret Break
  else
    _ ← say InvalidOption;
    io_ret Continue.

Definition menu : list term_line :=
  [MenuTitle; MenuEntry 1; MenuEntry 2; MenuEntry 3; MenuEntry 4; MenuEntry 5].

(** One round of the [while True] loop. *)
Definition main_iteration (int_max_str_digits : nat) (c : console)
    : control * console :=
  let c := foldl echo c menu in
  match chosen int_max_str_digits c with
  | (Done ctl, c') => (ctl, c')
  | (Caught e, c') => (Continue, echo c' (ErrorLine e))
  end.

(** At most [rounds] rounds of the loop: [Break] when the loop was left,
    [Continue] when it is still going. *)
Fixpoint main_loop (int_max_str_digits : nat) (rounds : nat) (c : console)
    : control * console :=
  match rounds with
  | O => (Continue, c)
  | S rounds' =>
      match main_iteration int_max_str_digits c with
      | (Break, c') => (Break, c')
      | (Continue, c') => main_loop int_max_str_digits rounds' c'
      end
  end.

(** [main()]: the constructor is outside the [try], so what it raises
    ends the program. *)
Definition main (int_max_str_digits : nat) (d : option file)
    (keyboard : list string) (rounds : nat) : res (control * console) :=
  match __init__ d [] with
  | (Raise e, _) => Raise e
  | (Ret _, st) =>
      Ret (main_loop int_max_str_digits rounds (Console st keyboard []))
  end.

(** *** Vocabulary of the statements on the menu *)

(** A pending entry as the menu makes them: the name is not blank, the
    heap key is the priority of the task, no dependency is blank or has
    white space around it, and the due date is absent or not empty. *)
Definition tidy (x : entry) : Prop :=
  blank (name (etask x)) = false
  ∧ eprio x = priority (etask x)
  ∧ Forall (λ dep, blank dep = false ∧ strip dep = dep)
      (dependencies (etask x))
  ∧ due_date (etask x) ≠ Some EmptyString.

(** Due dates with null strictly first: no date is before null. *)
Definition due_le_strict (d1 d2 : option string) : Prop :=
  match d1, d2 with
  | None, _ => True
  | Some _, None => False
  | Some s1, Some s2 => String.le s1 s2
  end.

Definition listing_le_strict (x y : entry) : Prop :=
  (eprio x < eprio y)%Z
  ∨ eprio x = eprio y
    ∧ due_le_strict (due_date (etask x)) (due_date (etask y)).

(** From one console to a later one: a tidy store stays tidy; no completed
    name is lost; the keyboard is read from the front. *)
Definition keeps_tidy (c c' : console) : Prop :=
  Forall tidy (tasks (manager c)) → Forall tidy (tasks (manager c')).

Definition keeps_completed (c c' : console) : Prop :=
  completed_tasks (manager c) ⊆ completed_tasks (manager c').

Definition reads_on (c c' : console) : Prop :=
  stdin c' `suffix_of` stdin c.

(** * Properties *)

(** ** Lists updated in place *)

Section list_update.
Context {A : Type}.
Implicit Types l : list A.

(** Overwriting [x] by [y] trades one for the other. *)
Lemma insert_trade l i x y :
  l !! i = Some x → x :: <[i := y]> l ≡ₚ y :: l.
Proof.
  revert i. induction l as [|a l IH]; intros [|i] Hi; simplify_eq/=.
  - apply perm_swap.
  - rewrite (perm_swap a x), (IH _ Hi). apply perm_swap.
Qed.

Lemma last_removelast l x : last l = Some x → l = removelast l ++ [x].
Proof.
  intros Hl. destruct (decide (l = [])) as [->|Hne]; [done|].
  rewrite (app_removelast_last x Hne) at 1.
  f_equal. f_equal.
  induction l as [|a [|b l] IH]; simplify_eq/=; [done|].
  apply IH; [done|]. by destruct l.
Qed.



End list_update.

(** ** heapq: every routine permutes the list it is given *)

Module heapq_facts.
Import heapq.

Local Arguments Nat.div : simpl never.

Lemma parent_lt pos : 0 < pos → (pos - 1) / 2 < pos.
Proof.
  intros. apply Nat.Div0.div_lt_upper_bound. lia.
Qed.

(** The fuel of [_siftdown] is enough: the loop never stops for lack of
    it, since any amount from [pos] on gives the same result. *)
Lemma _siftdown_loop_fuel f1 f2 heap newitem startpos pos :
  pos ≤ f1 → pos ≤ f2 →
  _siftdown_loop f1 heap newitem startpos pos
  = _siftdown_loop f2 heap newitem startpos pos.
Proof.
  revert f2 heap pos. induction f1 as [|f1 IH]; intros [|f2] heap pos H1 H2;
    simpl; try done.
  - replace pos with 0 by lia. by case_decide; [lia|].
  - replace pos with 0 by lia. by case_decide; [lia|].
  - case_decide; [|done].
    destruct (heap !! _); [|done].
    destruct (entry_lt _ _) as [[]|]; try done.
    assert ((pos - 1) / 2 < pos) by (apply parent_lt; lia).
    apply IH; lia.
Qed.

(** So is the fuel of [_siftup]: any amount from the distance to the end
    of the list on gives the same result. *)
Lemma _siftup_loop_fuel f1 f2 heap endpos pos :
  endpos - pos ≤ f1 → endpos - pos ≤ f2 →
  _siftup_loop f1 heap endpos pos = _siftup_loop f2 heap endpos pos.
Proof.
  revert f2 heap pos. induction f1 as [|f1 IH]; intros [|f2] heap pos H1 H2;
    simpl; try done.
  - by case_decide; [lia|].
  - by case_decide; [lia|].
  - case_decide; [|done].
    destruct (right_is_smaller _ _ _) as [b|]; [|done].
    destruct (heap !! _); [|done].
    apply IH; destruct b; lia.
Qed.

(** The list [_siftdown] works on has a stale slot at [pos] (holding
    [z]) that [newitem] is to fill. *)
Lemma _siftdown_loop_perm fuel heap newitem startpos pos z heap' :
  heap !! pos = Some z →
  _siftdown_loop fuel heap newitem startpos pos = (Ret tt, heap') →
  z :: heap' ≡ₚ newitem :: heap.
Proof.
  revert heap pos z.
  induction fuel as [|fuel IH]; intros heap pos z Hz; simpl.
  { intros [= <-]. by apply insert_trade. }
  case_decide as Hlt; [|intros [= <-]; by apply insert_trade].
  destruct (heap !! ((pos - 1) / 2)) as [parent|] eqn:Hp; [|done].
  destruct (entry_lt _ _) as [[]|]; [|intros [= <-]; by apply insert_trade|done].
  intros Hrec. eapply IH in Hrec; last first.
  { rewrite list_lookup_insert_ne; [done|].
    assert ((pos - 1) / 2 < pos) by (apply parent_lt; lia).
    lia. }
  apply (Permutation_cons_inv (a := parent)).
  rewrite (perm_swap z parent), Hrec, (perm_swap newitem z).
  rewrite (insert_trade heap pos z parent Hz). apply perm_swap.
Qed.

Lemma _siftdown_perm heap startpos pos heap' :
  _siftdown heap startpos pos = (Ret tt, heap') → heap' ≡ₚ heap.
Proof.
  unfold _siftdown. destruct (heap !! pos) as [newitem|] eqn:Hn; [|done].
  intros H. apply (Permutation_cons_inv (a := newitem)).
  by eapply _siftdown_loop_perm.
Qed.

Lemma _siftup_loop_perm fuel heap endpos pos z leaf heap' :
  heap !! pos = Some z →
  _siftup_loop fuel heap endpos pos = (Ret leaf, heap') →
  ∃ w, heap' !! leaf = Some w ∧ z :: heap' ≡ₚ w :: heap.
Proof.
  revert heap pos z.
  induction fuel as [|fuel IH]; intros heap pos z Hz; simpl.
  { intros [= <- <-]. eauto. }
  case_decide as Hlt; [|intros [= <- <-]; eauto].
  destruct (right_is_smaller _ _ _) as [b|]; [|done].
  destruct (heap !! (if b then _ else _)) as [child|] eqn:Hc; [|done].
  intros Hrec. eapply IH in Hrec as (w & Hw & Hperm); last first.
  { rewrite list_lookup_insert_ne; [done|]. destruct b; lia. }
  exists w. split; [done|].
  apply (Permutation_cons_inv (a := child)).
  rewrite (perm_swap z child), Hperm, (perm_swap w z).
  rewrite (insert_trade heap pos z child Hz). apply perm_swap.
Qed.

Lemma _siftup_perm heap pos heap' :
  _siftup heap pos = (Ret tt, heap') → heap' ≡ₚ heap.
Proof.
  unfold _siftup. destruct (heap !! pos) as [newitem|] eqn:Hn; [|done].
  destruct (_siftup_loop _ _ _ _) as [[leaf|] heap1] eqn:Hloop; [|done].
  intros Hdown. apply _siftdown_perm in Hdown.
  eapply _siftup_loop_perm in Hloop as (w & Hw & Hperm); [|done].
  rewrite Hdown. apply (Permutation_cons_inv (a := w)).
  by rewrite (insert_trade heap1 leaf w newitem Hw).
Qed.


Lemma heappush_perm heap item heap' :
  heappush heap item = (Ret tt, heap') → heap' ≡ₚ item :: heap.
Proof.
  unfold heappush. intros Hdown. apply _siftdown_perm in Hdown.
  by rewrite Hdown, Permutation_app_comm.
Qed.

Lemma heappop_perm heap x heap' :
  heappop heap = (Ret x, heap') → heap ≡ₚ x :: heap'.
Proof.
  unfold heappop. destruct (last heap) as [lastelt|] eqn:Hlast; [|done].
  apply last_removelast in Hlast. revert Hlast.
  destruct (removelast heap) as [|returnitem tl]; simpl.
  { intros -> [= <- <-]. done. }
  destruct (_siftup _ _) as [[[]|] heap1] eqn:Hup; [|done].
  intros -> [= <- <-]. apply _siftup_perm in Hup.
  rewrite Hup. change (returnitem :: tl ++ [lastelt]) with
    ((returnitem :: tl) ++ [lastelt]).
  rewrite Permutation_app_comm. apply perm_swap.
Qed.

Lemma heapify_from_perm idxs x x' :
  heapify_from idxs x = (Ret tt, x') → x' ≡ₚ x.
Proof.
  revert x. induction idxs as [|i idxs IH]; intros x; simpl.
  { by intros [= <-]. }
  destruct (_siftup x i) as [[[]|] x1] eqn:Hup; [|done].
  intros Hrec. apply IH in Hrec. rewrite Hrec. by apply (_siftup_perm x i).
Qed.

Lemma heapify_perm x x' : heapify x = (Ret tt, x') → x' ≡ₚ x.
Proof. apply heapify_from_perm. Qed.

End heapq_facts.

(** ** heapq: no comparison raises when no two priorities tie *)

Module heapq_total.
Import heapq heapq_facts.

Local Arguments Nat.div : simpl never.
Local Arguments Nat.mul : simpl never.
Local Ltac Zify.zify_post_hook ::= Z.to_euclidean_division_equations.

Global Instance tie_free_perm c : Proper ((≡ₚ) ==> iff) (tie_free c).
Proof. intros l1 l2 Hl. unfold tie_free. by rewrite Hl. Qed.














End heapq_total.

(** ** complete_task: the drain and the rebuild *)

Section complete_task_facts.
Import heapq heapq_facts.
Implicit Types st : state.

(** The fuel of the drain is enough: any amount from the number of
    pending entries on gives the same result. *)
Lemma drain_fuel f1 f2 st nm rem found :
  length (tasks st) ≤ f1 → length (tasks st) ≤ f2 →
  drain f1 st nm rem found = drain f2 st nm rem found.
Proof.
  revert f2 st rem found.
  induction f1 as [|f1 IH]; intros [|f2] st rem found H1 H2; simpl; try done.
  - by destruct (tasks st); [|simpl in *; lia].
  - by destruct (tasks st); [|simpl in *; lia].
  - destruct (tasks st) as [|x0 l0] eqn:Hl; [done|]. rewrite <- Hl in *.
    destruct (heappop (tasks st)) as [[x|] heap] eqn:Hpop; [|done].
    apply heappop_perm, Permutation_length in Hpop. simpl in Hpop.
    case_bool_decide; apply IH; simpl; lia.
Qed.

Lemma drain_spec fuel st nm rem found rem' found' st' :
  length (tasks st) ≤ fuel →
  drain fuel st nm rem found = (Ret (rem', found'), st') →
  tasks st' = []
  ∧ rem' ≡ₚ rem ++ (as_tuple <$> filter (λ x, name (etask x) ≠ nm) (tasks st))
  ∧ found' = found || bool_decide (nm ∈ pending_names st)
  ∧ completed_tasks st'
    = (if bool_decide (nm ∈ pending_names st)
       then {[nm]} ∪ completed_tasks st else completed_tasks st)
  ∧ disk st' = disk st ∧ stdout st' = stdout st.
Proof.
  unfold pending_names. revert st rem found.
  induction fuel as [|fuel IH]; intros st rem found Hlen; simpl.
  { destruct (tasks st) eqn:Hl; [|simpl in *; lia].
    intros [= <- <- <-]. rewrite Hl. simpl.
    by rewrite app_nil_r, orb_false_r. }
  destruct (tasks st) as [|x0 l0] eqn:Hl.
  { intros [= <- <- <-]. rewrite Hl. simpl.
    by rewrite app_nil_r, orb_false_r. }
  rewrite <- Hl in *. clear Hl x0 l0.
  destruct (heappop (tasks st)) as [[x|] heap] eqn:Hpop; [|done].
  apply heappop_perm in Hpop.
  assert (length heap ≤ fuel).
  { apply Permutation_length in Hpop. simpl in *. lia. }
  assert (filter (λ x, name (etask x) ≠ nm) (tasks st)
          ≡ₚ filter (λ x, name (etask x) ≠ nm) (x :: heap)) as Hfil
    by (by rewrite Hpop).
  assert (nm ∈ (λ x, name (etask x)) <$> tasks st
          ↔ nm = name (etask x) ∨ nm ∈ (λ x, name (etask x)) <$> heap)
    as Hmem by (by rewrite Hpop, fmap_cons, elem_of_cons).
  rewrite (bool_decide_ext _ _ Hmem), Hfil. clear Hfil Hmem Hpop.
  case_bool_decide as Hx; intros Hrec;
    apply IH in Hrec as (Ht & Hrem & Hf & Hc & Hd & Ho); try done;
    simpl in *; (split; [done|]).
  - rewrite filter_cons_False by (by intros []).
    rewrite bool_decide_eq_true_2 by (by left).
    split; [done|]. split; [by rewrite orb_true_r|].
    split; [|done]. rewrite Hc.
    case_bool_decide; [|done]. by rewrite (assoc_L (∪)), (idemp_L (∪)).
  - rewrite filter_cons_True by done.
    rewrite Hrem, <- app_assoc. split; [done|].
    assert (nm = name (etask x) ∨ nm ∈ (λ x, name (etask x)) <$> heap
            ↔ nm ∈ (λ x, name (etask x)) <$> heap) as Hiff
      by (split; [by intros [->|?]|by right]).
    by rewrite (bool_decide_ext _ _ Hiff).
Qed.

Lemma restore_spec st rem st' :
  restore st rem = (Ret tt, st') →
  tasks st' ≡ₚ tasks st ++ rem
  ∧ completed_tasks st' = completed_tasks st
  ∧ disk st' = disk st ∧ stdout st' = stdout st.
Proof.
  revert st. induction rem as [|x rem IH]; intros st; simpl.
  { intros [= <-]. by rewrite app_nil_r. }
  destruct (heappush (tasks st) x) as [[[]|] heap] eqn:Hpush; [|done].
  intros Hrec. apply IH in Hrec as (Ht & Hc & Hd & Ho). simpl in *.
  apply heappush_perm in Hpush.
  split; [|done]. rewrite Ht, Hpush.
  by rewrite (Permutation_middle (tasks st) rem x).
Qed.

(** What a call of [complete_task] that returns has done. *)
Lemma complete_task_returns st nm v st' :
  complete_task st nm = (Ret v, st') →
  v = PyNone
  ∧ tasks st' ≡ₚ as_tuple <$> filter (λ x, name (etask x) ≠ nm) (tasks st)
  ∧ completed_tasks st'
    = (if bool_decide (nm ∈ pending_names st)
       then {[nm]} ∪ completed_tasks st else completed_tasks st)
  ∧ stdout st'
    = stdout st ++
      (if bool_decide (nm ∈ pending_names st) then [] else [NotFound nm])
  ∧ disk st'
    = Some (Json (Some (dump_entry <$> tasks st'))
                 (Some (elements (completed_tasks st')))).
Proof.
  unfold complete_task.
  destruct (drain _ _ _ _ _) as [[[rem found]|] st1] eqn:Hdrain; [|done].
  apply drain_spec in Hdrain as (Ht & Hrem & Hf & Hc & Hd & Ho); [|done].
  destruct (restore _ _) as [[[]|] st2] eqn:Hres; [|done].
  apply restore_spec in Hres as (Ht2 & Hc2 & Hd2 & Ho2).
  intros [= <- <-]. simpl in *. split; [done|].
  split.
  { rewrite Ht2. destruct (negb found); simpl; by rewrite Ht, Hrem. }
  split.
  { rewrite Hc2. by destruct (negb found). }
  split; [|done].
  rewrite Ho2, Hf.
  destruct (bool_decide _); simpl; rewrite Ho; [by rewrite app_nil_r|done].
Qed.
(** *** When no two priorities tie, the call returns *)




End complete_task_facts.

(** ** sorted: the listing order *)

Section sorted_facts.
Context {A K : Type} (lt : K → K → bool) (key : A → K).
Context (le : relation A) `{!Transitive le}.
Hypothesis lt_le : ∀ x y, lt (key x) (key y) = true → le x y.
Hypothesis not_lt_le : ∀ x y, lt (key x) (key y) = false → le y x.

Lemma sorted_insert_perm x l : sorted_insert lt key x l ≡ₚ x :: l.
Proof.
  induction l as [|y l IH]; simpl; [done|].
  destruct (lt (key y) (key x)); [|done].
  rewrite IH. apply perm_swap.
Qed.

Lemma sorted_perm l : sorted lt key l ≡ₚ l.
Proof.
  induction l as [|x l IH]; simpl; [done|].
  by rewrite sorted_insert_perm, IH.
Qed.

Lemma sorted_insert_sorted x l :
  StronglySorted le l → StronglySorted le (sorted_insert lt key x l).
Proof.
  induction 1 as [|y l Hl IH Hy]; simpl.
  { repeat constructor. }
  destruct (lt (key y) (key x)) eqn:Hlt.
  - constructor; [done|].
    rewrite sorted_insert_perm. constructor; [by apply lt_le|done].
  - apply not_lt_le in Hlt. constructor; [by constructor|].
    constructor; [done|].
    eapply Forall_impl; [exact Hy|]. intros z Hz. by trans y.
Qed.

Lemma sorted_sorted l : StronglySorted le (sorted lt key l).
Proof.
  induction l as [|x l IH]; simpl; [constructor|].
  by apply sorted_insert_sorted.
Qed.
End sorted_facts.

Section listing_order.
Lemma string_ltb_le s1 s2 : String.ltb s1 s2 = true → String.le s1 s2.
Proof.
  unfold String.le, String.ltb, String.leb.
  by destruct (String.compare s1 s2).
Qed.

Lemma string_not_ltb_le s1 s2 : String.ltb s1 s2 = false → String.le s2 s1.
Proof.
  unfold String.le, String.ltb, String.leb.
  rewrite (String.compare_antisym s1 s2).
  by destruct (String.compare s2 s1).
Qed.

Lemma string_le_empty s : String.le EmptyString s.
Proof. by destruct s. Qed.

(** [due_le] is the order of the second key component. *)
Lemma due_le_key x y :
  due_le (due_date (etask x)) (due_date (etask y))
  ↔ String.le (sort_key x).2 (sort_key y).2.
Proof.
  unfold sort_key, due_le. simpl.
  destruct (due_date (etask x)) as [[|c1 s1]|],
           (due_date (etask y)) as [[|c2 s2]|]; simpl;
    try done; split; try done; intros _; apply string_le_empty.
Qed.

Global Instance listing_le_trans : Transitive listing_le.
Proof.
  intros x y z. unfold listing_le. rewrite !due_le_key.
  intros [?|[? ?]] [?|[? ?]]; [left; lia..|].
  right. split; [congruence|]. by etrans.
Qed.

Lemma key_lt_listing_le x y :
  key_lt (sort_key x) (sort_key y) = true → listing_le x y.
Proof.
  unfold key_lt, listing_le. rewrite due_le_key.
  case_bool_decide as Hp.
  - intros ?%string_ltb_le. by right.
  - intros ?%Z.ltb_lt. by left.
Qed.

Lemma not_key_lt_listing_le x y :
  key_lt (sort_key x) (sort_key y) = false → listing_le y x.
Proof.
  unfold key_lt, listing_le. rewrite due_le_key.
  case_bool_decide as Hp.
  - intros ?%string_not_ltb_le. by right.
  - intros ?%Z.ltb_ge. left. simpl in *. lia.
Qed.

Lemma sorted_tasks_perm st : sorted_tasks st ≡ₚ tasks st.
Proof. apply sorted_perm. Qed.

Lemma sorted_tasks_sorted st : StronglySorted listing_le (sorted_tasks st).
Proof.
  apply sorted_sorted; [apply _|..];
    auto using key_lt_listing_le, not_key_lt_listing_le.
Qed.

Lemma foldl_print st ls :
  foldl (λ st x, print st (task_line x)) st ls
  = State (tasks st) (completed_tasks st) (disk st)
          (stdout st ++ (task_line <$> ls)).
Proof.
  revert st. induction ls as [|x ls IH]; intros st; simpl.
  { rewrite app_nil_r. by destruct st. }
  rewrite IH. simpl. by rewrite <- app_assoc.
Qed.
End listing_order.

(** ** heapq: the heap invariant *)

Module heap_order.
Import heapq heapq_facts.

Local Arguments Nat.div : simpl never.
Local Arguments Nat.mul : simpl never.
Local Ltac Zify.zify_post_hook ::= Z.to_euclidean_division_equations.

Lemma entry_lt_true a b : entry_lt a b = Ret true → (eprio a < eprio b)%Z.
Proof.
  unfold entry_lt. repeat case_bool_decide; try done.
  intros [= ?%Z.ltb_lt]. done.
Qed.

Lemma entry_lt_false a b : entry_lt a b = Ret false → (eprio b ≤ eprio a)%Z.
Proof.
  unfold entry_lt. repeat case_bool_decide; try done; [lia|].
  intros [= ?%Z.ltb_ge]. done.
Qed.

Lemma ancestor_ge s i : ancestor s i → s ≤ i.
Proof. induction 1; lia. Qed.

Lemma ancestor_parent s i : ancestor s i → s < i → ancestor s ((i - 1) / 2).
Proof.
  destruct 1 as [|p Hp|p Hp]; [lia|..]; intros _.
  - by replace ((2 * p + 1 - 1) / 2) with p by lia.
  - by replace ((2 * p + 2 - 1) / 2) with p by lia.
Qed.

Lemma ancestor_root i : ancestor 0 i.
Proof.
  induction (lt_wf i) as [i _ IH]. destruct (decide (i = 0)) as [->|Hi].
  { constructor. }
  assert (i = 2 * ((i - 1) / 2) + 1 ∨ i = 2 * ((i - 1) / 2) + 2) as [->| ->]
    by lia; constructor; apply IH; lia.
Qed.

Lemma sift_inv_step s pos newitem heap parent :
  sift_inv s pos newitem heap → s < pos →
  heap !! ((pos - 1) / 2) = Some parent →
  (eprio newitem < eprio parent)%Z →
  sift_inv s ((pos - 1) / 2) newitem (<[pos := parent]> heap).
Proof.
  intros (Hanc & Hlen & I1 & I2 & I3) Hs Hp Hlt.
  assert (Hanc' := ancestor_parent _ _ Hanc Hs).
  assert (Hge := ancestor_ge _ _ Hanc').
  assert ((pos - 1) / 2 < pos) as Hlt' by lia.
  (* no entry with parent [(pos - 1) / 2] is below [parent] *)
  assert (∀ c x, 0 < c → (c - 1) / 2 = (pos - 1) / 2 →
            <[pos := parent]> heap !! c = Some x →
            (eprio parent ≤ eprio x)%Z) as Hchild.
  { intros c x Hc Hpc Hx. destruct (decide (c = pos)) as [->|Hne].
    - rewrite list_lookup_insert_eq in Hx by done. by simplify_eq.
    - rewrite list_lookup_insert_ne in Hx by done.
      eapply (I1 c); eauto; try lia. by rewrite Hpc. }
  split_and!; [done|by rewrite length_insert; lia|..].
  - intros j x p Hj Hsj Hne1 Hne2 Hx Hpj.
    assert (j ≠ pos) by (intros ->; done).
    rewrite list_lookup_insert_ne in Hx by done.
    destruct (decide ((j - 1) / 2 = pos)) as [Heq|Hne3].
    + rewrite Heq, list_lookup_insert_eq in Hpj by done. simplify_eq.
      eapply (I3 Hs j); eauto.
    + rewrite list_lookup_insert_ne in Hpj by done. eapply (I1 j); eauto.
  - intros c x Hc Hpc Hx. apply Hchild in Hx; [lia|done..].
  - intros Hs' c x g Hc Hpc Hx Hg.
    rewrite list_lookup_insert_ne in Hg by lia.
    apply Hchild in Hx; [|done..].
    assert (eprio g ≤ eprio parent)%Z; [|lia].
    eapply (I1 ((pos - 1) / 2)); eauto; try lia.
    by apply ancestor_ge, ancestor_parent.
Qed.

(** Filling the stale slot once [newitem] is no smaller than the parent
    (or the slot is [startpos]). *)
Lemma sift_inv_fill s pos newitem heap :
  sift_inv s pos newitem heap →
  (s < pos → ∃ p, heap !! ((pos - 1) / 2) = Some p
                  ∧ (eprio p ≤ eprio newitem)%Z) →
  ordered_from s (<[pos := newitem]> heap).
Proof.
  intros (Hanc & Hlen & I1 & I2 & I3) Hpar j x p Hj Hsj Hx Hp.
  destruct (decide (j = pos)) as [->|Hne].
  - rewrite list_lookup_insert_eq in Hx by done.
    rewrite list_lookup_insert_ne in Hp by lia. simplify_eq.
    destruct Hpar as (p' & Hp' & Hle); [lia|]. by simplify_eq.
  - rewrite list_lookup_insert_ne in Hx by done.
    destruct (decide ((j - 1) / 2 = pos)) as [Heq|Hne2].
    + rewrite Heq, list_lookup_insert_eq in Hp by done. simplify_eq.
      eapply I2; eauto.
    + rewrite list_lookup_insert_ne in Hp by done. eapply (I1 j); eauto.
Qed.

Lemma _siftdown_loop_ordered fuel heap newitem s pos heap' :
  pos ≤ fuel → sift_inv s pos newitem heap →
  _siftdown_loop fuel heap newitem s pos = (Ret tt, heap') →
  ordered_from s heap'.
Proof.
  revert heap pos. induction fuel as [|fuel IH]; intros heap pos Hfuel Hinv;
    simpl.
  { intros [= <-]. apply sift_inv_fill; [done|lia]. }
  case_decide as Hs; last first.
  { intros [= <-]. apply sift_inv_fill; [done|lia]. }
  destruct (heap !! ((pos - 1) / 2)) as [parent|] eqn:Hp; [|done].
  destruct (entry_lt newitem parent) as [[]|] eqn:Hlt; [| |done].
  - apply entry_lt_true in Hlt. apply IH; [lia|].
    by apply sift_inv_step.
  - apply entry_lt_false in Hlt. intros [= <-].
    apply sift_inv_fill; eauto.
Qed.

Lemma heappush_ordered heap item heap' :
  heap_ordered heap → heappush heap item = (Ret tt, heap') →
  heap_ordered heap'.
Proof.
  unfold heappush, _siftdown, heap_ordered. intros Hord.
  rewrite length_app, Nat.add_sub. simpl.
  rewrite lookup_app_r, Nat.sub_diag by done. simpl.
  apply _siftdown_loop_ordered; [done|].
  split_and!; [apply ancestor_root|rewrite length_app; simpl; lia|..].
  - intros j x p Hj _ Hne1 Hne2 Hx Hp.
    assert (j < length heap).
    { apply lookup_lt_Some in Hx. rewrite length_app in Hx. simpl in *. lia. }
    rewrite lookup_app_l in Hx, Hp by lia. eapply Hord; eauto. lia.
  - intros c x Hc Hpc Hx. apply lookup_lt_Some in Hx.
    rewrite length_app in Hx. simpl in *. lia.
  - intros _ c x g Hc Hpc Hx. apply lookup_lt_Some in Hx.
    rewrite length_app in Hx. simpl in *. lia.
Qed.

Lemma right_is_smaller_le heap endpos childpos take_right l r :
  right_is_smaller heap endpos childpos = Ret take_right →
  heap !! childpos = Some l → heap !! (childpos + 1) = Some r →
  endpos = length heap →
  if take_right then (eprio r ≤ eprio l)%Z else (eprio l ≤ eprio r)%Z.
Proof.
  unfold right_is_smaller. intros Hr Hl Hrr ->. apply lookup_lt_Some in Hrr as ?.
  rewrite decide_True, Hl, Hrr in Hr by done.
  destruct (entry_lt l r) as [[]|] eqn:Hlt; simplify_eq/=.
  - apply entry_lt_true in Hlt. lia.
  - by apply entry_lt_false in Hlt.
Qed.

Lemma bubble_inv_step s pos heap take_right child :
  bubble_inv s pos heap →
  right_is_smaller heap (length heap) (2 * pos + 1) = Ret take_right →
  heap !! (if take_right then 2 * pos + 1 + 1 else 2 * pos + 1) = Some child →
  bubble_inv s (if take_right then 2 * pos + 1 + 1 else 2 * pos + 1)
    (<[pos := child]> heap).
Proof.
  intros (Hanc & Hlen & Hord) Hr Hc.
  (* the child that moves up is no larger than either child of [pos] *)
  assert (∀ j x, 0 < j → (j - 1) / 2 = pos → heap !! j = Some x →
            (eprio child ≤ eprio x)%Z) as Hmin.
  { intros j x Hj Hpj Hx. destruct take_right.
    - destruct (decide (j = 2 * pos + 1 + 1)) as [->|]; [by simplify_eq|].
      assert (j = 2 * pos + 1) as -> by lia.
      by apply (right_is_smaller_le _ _ _ _ _ _ Hr Hx Hc).
    - destruct (decide (j = 2 * pos + 1)) as [->|]; [by simplify_eq|].
      assert (j = 2 * pos + 1 + 1) as -> by lia.
      by apply (right_is_smaller_le _ _ _ _ _ _ Hr Hc Hx). }
  assert (∃ childpos,
            childpos = (if take_right then 2 * pos + 1 + 1 else 2 * pos + 1)
            ∧ (childpos = 2 * pos + 1 ∨ childpos = 2 * pos + 2))
    as (childpos & Hdef & Hcp) by (destruct take_right; eauto with lia).
  rewrite <- Hdef in *. clear Hdef Hr.
  assert (Hge := ancestor_ge _ _ Hanc).
  split_and!.
  { destruct Hcp as [->| ->]; by constructor. }
  { rewrite length_insert. by apply lookup_lt_Some in Hc. }
  right. split; [lia|].
  intros j x p Hj Hsj Hx Hp.
  destruct (decide (j = pos)) as [->|Hne].
  - (* the moved child against the parent of [pos] *)
    rewrite list_lookup_insert_eq in Hx by done.
    rewrite list_lookup_insert_ne in Hp by lia. simplify_eq.
    destruct Hord as [[-> _]|[_ Hord]]; [lia|].
    destruct (lookup_lt_is_Some_2 heap pos Hlen) as [z Hz].
    trans (eprio z).
    + eapply (Hord pos); eauto.
    + eapply (Hord childpos); eauto; try lia;
        by replace ((childpos - 1) / 2) with pos by lia.
  - rewrite list_lookup_insert_ne in Hx by done.
    destruct (decide ((j - 1) / 2 = pos)) as [Heq|Hne2].
    + (* the moved child against the children of [pos] *)
      rewrite Heq, list_lookup_insert_eq in Hp by done. simplify_eq.
      by eapply Hmin.
    + rewrite list_lookup_insert_ne in Hp by done.
      destruct Hord as [[-> Hord]|[_ Hord]]; eapply (Hord j); eauto; lia.
Qed.

Lemma _siftup_loop_inv fuel heap s pos leaf heap' :
  bubble_inv s pos heap → length heap - pos ≤ fuel →
  _siftup_loop fuel heap (length heap) pos = (Ret leaf, heap') →
  bubble_inv s leaf heap' ∧ length heap' ≤ 2 * leaf + 1.
Proof.
  revert heap pos. induction fuel as [|fuel IH]; intros heap pos Hinv Hfuel;
    simpl.
  { destruct Hinv as (_ & ? & _). lia. }
  case_decide as Hlt; [|intros [= <- <-]; split; [done|lia]].
  destruct (right_is_smaller _ _ _) as [take_right|] eqn:Hr; [|done].
  destruct (heap !! _) as [child|] eqn:Hc; [|done].
  intros Hrec. rewrite <- (length_insert heap pos child) in Hrec.
  apply IH in Hrec; [done|by apply bubble_inv_step|].
  rewrite length_insert. destruct take_right; lia.
Qed.

(** [_siftup(heap, pos)] makes a heap at [pos] out of the heaps below. *)
Lemma _siftup_ordered heap s heap' :
  ordered_from (S s) heap → _siftup heap s = (Ret tt, heap') →
  ordered_from s heap'.
Proof.
  unfold _siftup. intros Hord.
  destruct (heap !! s) as [newitem|] eqn:Hn; [|done].
  destruct (_siftup_loop _ _ _ _) as [[leaf|] heap1] eqn:Hloop; [|done].
  apply _siftup_loop_inv with (s := s) in Hloop as [(Hanc & Hlen & Hord1) Hleaf];
    [|split_and!; [constructor|by eapply lookup_lt_Some|by left]|lia].
  unfold _siftdown. rewrite list_lookup_insert_eq by done.
  apply _siftdown_loop_ordered; [done|].
  split_and!; [done|by rewrite length_insert|..].
  - intros j x p Hj Hsj Hne1 Hne2 Hx Hp.
    rewrite list_lookup_insert_ne in Hx, Hp by done.
    destruct Hord1 as [[-> Hord1]|[_ Hord1]]; eapply (Hord1 j); eauto; lia.
  - intros c x Hc Hpc Hx. apply lookup_lt_Some in Hx.
    rewrite length_insert in Hx. lia.
  - intros _ c x g Hc Hpc Hx. apply lookup_lt_Some in Hx.
    rewrite length_insert in Hx. lia.
Qed.

Lemma heapify_from_ordered k x x' :
  ordered_from k x → heapify_from (rev (seq 0 k)) x = (Ret tt, x') →
  heap_ordered x'.
Proof.
  revert x. induction k as [|k IH]; intros x Hord.
  { by intros [= <-]. }
  rewrite seq_S, rev_app_distr. simpl.
  destruct (_siftup x k) as [[[]|] x1] eqn:Hup; [|done].
  apply IH. by eapply _siftup_ordered.
Qed.

Lemma heapify_ordered x x' : heapify x = (Ret tt, x') → heap_ordered x'.
Proof.
  apply heapify_from_ordered. intros j e p Hj Hk He _.
  apply lookup_lt_Some in He. lia.
Qed.

(** The root of a heap has the least priority. *)
Lemma heap_ordered_root heap r :
  heap_ordered heap → heap !! 0 = Some r →
  ∀ x, x ∈ heap → (eprio r ≤ eprio x)%Z.
Proof.
  intros Hord Hr x [i Hi]%list_elem_of_lookup. revert x Hi.
  induction (lt_wf i) as [i _ IH]; intros x Hi.
  destruct (decide (i = 0)) as [->|Hne]; [by simplify_eq|].
  assert ((i - 1) / 2 < i) as Hlt by lia.
  destruct (lookup_lt_is_Some_2 heap ((i - 1) / 2)) as [p Hp].
  { apply lookup_lt_Some in Hi. lia. }
  trans (eprio p); [by eapply IH|].
  eapply (Hord i); eauto; lia.
Qed.

End heap_order.

(** ** The stores a driver can hold are heaps *)

Section reachable_facts.
Import heapq heapq_facts heap_order.

Lemma heap_ordered_nil : heap_ordered [].
Proof. by intros j x p _ _ ?. Qed.

Lemma __init___ordered d out st :
  __init__ d out = (Ret tt, st) → heap_ordered (tasks st).
Proof.
  unfold __init__, load_tasks. simpl.
  destruct d as [[| |tasks_key completed_tasks_key]|]; [done..| |].
  - destruct (heapify _) as [[[]|] heap] eqn:Hfy; [|done].
    intros [= <-]. simpl. by eapply heapify_ordered.
  - intros [= <-]. apply heap_ordered_nil.
Qed.

Lemma add_task_ordered st nm prio deps due st' :
  heap_ordered (tasks st) →
  add_task st nm prio deps due = (Ret tt, st') → heap_ordered (tasks st').
Proof.
  unfold add_task. intros Hord.
  destruct (negb _); [done|]. destruct (negb _); [done|].
  destruct (heappush _ _) as [[[]|] heap] eqn:Hpush; [|done].
  intros [= <-]. simpl. by eapply heappush_ordered.
Qed.

Lemma restore_ordered st rem st' :
  heap_ordered (tasks st) →
  restore st rem = (Ret tt, st') → heap_ordered (tasks st').
Proof.
  revert st. induction rem as [|x rem IH]; intros st Hord; simpl.
  { by intros [= <-]. }
  destruct (heappush (tasks st) x) as [[[]|] heap] eqn:Hpush; [|done].
  apply IH. simpl. by eapply heappush_ordered.
Qed.

Lemma complete_task_ordered st nm v st' :
  complete_task st nm = (Ret v, st') → heap_ordered (tasks st').
Proof.
  unfold complete_task.
  destruct (drain _ _ _ _ _) as [[[rem found]|] st1] eqn:Hdrain; [|done].
  apply drain_spec in Hdrain as (Ht & _); [|done].
  destruct (restore _ _) as [[[]|] st2] eqn:Hres; [|done].
  intros [= <- <-]. simpl. eapply restore_ordered; [|done].
  destruct (negb found); simpl; rewrite Ht; apply heap_ordered_nil.
Qed.

Lemma reachable_ordered st : reachable st → heap_ordered (tasks st).
Proof.
  induction 1 as [d out st Hinit|st a st' _ IH Hadd|st nm v st' _ _ Hc
                 |st _ IH|st _ IH].
  - by eapply __init___ordered.
  - by eapply add_task_ordered.
  - by eapply complete_task_ordered.
  - unfold show_tasks. simpl. by rewrite foldl_print.
  - unfold next_task. destruct (tasks st) eqn:Ht; simpl; [by rewrite Ht|].
    destruct (is_executable _ _); simpl; by rewrite ?Ht.
Qed.

Lemma add_all_reachable st calls st' :
  reachable st → add_all st calls = (Ret tt, st') → reachable st'.
Proof.
  revert st. induction calls as [|a calls IH]; intros st Hst; simpl.
  { by intros [= <-]. }
  destruct (add_call st a) as [[[]|] st1] eqn:Hadd; [|done].
  apply IH. by eapply reach_add_task.
Qed.

Lemma fresh_reachable : reachable fresh.
Proof. by apply (reach_init None []). Qed.
End reachable_facts.

(** * The operations of the task store *)

(** ** add_task: validation *)

Lemma rstrip_blank s : rstrip s = EmptyString ↔ blank s = true.
Proof.
  induction s as [|c s IH]; simpl; [done|].
  destruct (rstrip s) eqn:Hr.
  - destruct (isspace c); simpl; [|done]. by rewrite <- IH.
  - rewrite andb_true_iff, <- IH. split; [done|]. by intros [_ ?].
Qed.

Lemma lstrip_blank s : blank (lstrip s) = blank s.
Proof.
  induction s as [|c s IH]; simpl; [done|].
  destruct (isspace c) eqn:Hc; simpl; [done|]. by rewrite Hc.
Qed.

(** [not name.strip()] holds exactly of the blank names. *)
Lemma strip_blank s : truthy (strip s) = false ↔ blank s = true.
Proof.
  unfold strip. rewrite <- lstrip_blank, <- rstrip_blank.
  by destruct (rstrip (lstrip s)).
Qed.

(** C8. [add_task] with a name that is empty or only white space, or with
    a priority that is not an [int] (1.5, say), raises [ValueError] (the
    validation error) and changes nothing: pending tasks, completed names,
    the backing file and the terminal are as before, so nothing was
    inserted and nothing saved. *)
Theorem add_task_rejects_invalid st nm prio deps due :
  blank nm = true ∨ isinstance_int prio = false →
  add_task st nm prio deps due = (Raise ValueError, st).
Proof.
  unfold add_task. intros [Hnm%strip_blank|Hprio].
  - by rewrite Hnm.
  - rewrite Hprio. by destruct (negb (truthy (strip nm))).
Qed.

Lemma add_task_rejects_invalid_witness :
  add_task one_task_store "   " (PyInt 1) None None
    = (Raise ValueError, one_task_store)
  ∧ add_task one_task_store "" (PyInt 1) None None
    = (Raise ValueError, one_task_store)
  ∧ add_task one_task_store "x" (PyFloat 3 (-1)) None None
    = (Raise ValueError, one_task_store).
Proof.
  split; [|split].
  - apply (add_task_rejects_invalid one_task_store "   "). left. reflexivity.
  - apply (add_task_rejects_invalid one_task_store ""). left. reflexivity.
  - apply (add_task_rejects_invalid one_task_store "x"). right. reflexivity.
Defined.


(** ** load_tasks: the file at construction *)

(** C10. Constructing a manager where the file does not exist succeeds
    with no pending task and no completed name; where the file exists and
    its content is malformed (it does not decode, or decodes to something
    that is not an object), construction raises instead of yielding an
    empty store: the error of [json.load], or of the first [data.get]. *)
Theorem load_missing_or_malformed out :
  __init__ None out = (Ret tt, State [] ∅ None out)
  ∧ (__init__ (Some Undecodable) out).1 = Raise JSONDecodeError
  ∧ (__init__ (Some NotAnObject) out).1 = Raise AttributeError.
Proof. split_and!; reflexivity. Qed.

(** A file that decodes to an object without the two keys is read as an
    empty store: [data.get] supplies the defaults. *)
Lemma load_object_without_keys out :
  __init__ (Some (Json None None)) out
  = (Ret tt, State [] ∅ (Some (Json None None)) out).
Proof. reflexivity. Qed.

(** ** is_executable and next_task *)

Lemma is_executable_spec st t :
  is_executable st t = true
  ↔ ∀ dep, dep ∈ dependencies t → dep ∈ completed_tasks st.
Proof.
  unfold is_executable. induction (dependencies t) as [|d deps IH]; simpl.
  { split; [|done]. intros _ dep Hdep. by apply elem_of_nil in Hdep. }
  rewrite andb_true_iff, IH, bool_decide_eq_true. split.
  - intros [Hd Hdeps] dep [->|Hdep]%elem_of_cons; auto.
  - intros Hall. split; [|intros dep Hdep]; apply Hall;
      rewrite elem_of_cons; auto.
Qed.

(** C7. A task is executable exactly when every name in its dependencies
    is in the completed set. So a task that depends on ["A"] alone is not
    executable while "A" is not completed, and it is executable once a call
    [complete_task("A")] has found "A" pending and returned. *)
Theorem executable_iff_dependencies_completed st t :
  (is_executable st t = true
   ↔ ∀ dep, dep ∈ dependencies t → dep ∈ completed_tasks st)
  ∧ ∀ A v st',
      dependencies t = [A] → A ∉ completed_tasks st →
      A ∈ pending_names st → complete_task st A = (Ret v, st') →
      is_executable st t = false ∧ is_executable st' t = true.
Proof.
  split; [apply is_executable_spec|].
  intros A v st' Hdeps Hnot Hpending Hret.
  apply complete_task_returns in Hret as (_ & _ & Hc & _).
  rewrite bool_decide_eq_true_2 in Hc by done. split.
  - apply not_true_is_false. rewrite is_executable_spec, Hdeps.
    intros Hall. apply Hnot, Hall. left.
  - rewrite is_executable_spec, Hdeps, Hc.
    intros dep ->%list_elem_of_singleton. apply elem_of_union_l.
    by apply elem_of_singleton.
Qed.

Lemma executable_iff_dependencies_completed_witness :
  let t := Task "deploy" 2 ["build"] None in
  is_executable build_store t = false
  ∧ is_executable (complete_task build_store "build").2 t = true.
Proof.
  intros t.
  apply (proj2 (executable_iff_dependencies_completed build_store t)
           "build" PyNone (complete_task build_store "build").2).
  - reflexivity.
  - compute_done.
  - compute_done.
  - vm_compute. reflexivity.
Defined.



(** The task behind a blocked first task is executable, and is not
    offered. *)
Lemma next_task_does_not_search :
  is_executable ghost_store (Task "B" 2 [] None) = true
  ∧ Entry TupleT 2 (Task "B" 2 [] None) ∈ tasks ghost_store
  ∧ (next_task ghost_store).1 = Ret None.
Proof. split_and!; compute_done. Qed.

(** ** show_tasks: the listing *)

(** C3. After any sequence of [add_task] calls that all returned, whatever
    the signs of the priorities and the order of the calls, [show_tasks]
    prints the pending tasks, each once, in ascending order of priority
    and, among equal priorities, in ascending order of due date with an
    absent due date first; the pending tasks themselves are not touched. *)
Theorem show_tasks_sorted st0 calls st :
  add_all st0 calls = (Ret tt, st) →
  show_tasks st
  = (Ret tt, State (tasks st) (completed_tasks st) (disk st)
                   (stdout st ++ (task_line <$> sorted_tasks st)))
  ∧ sorted_tasks st ≡ₚ tasks st
  ∧ StronglySorted listing_le (sorted_tasks st).
Proof.
  intros _. unfold show_tasks. rewrite foldl_print.
  split_and!; [done|apply sorted_tasks_perm|apply sorted_tasks_sorted].
Qed.

Lemma show_tasks_sorted_witness :
  (show_tasks listing_store).1 = Ret tt
  ∧ tasks (show_tasks listing_store).2 = tasks listing_store
  ∧ StronglySorted listing_le (sorted_tasks listing_store).
Proof.
  destruct (show_tasks_sorted fresh listing_calls listing_store)
    as (Hshow & _ & Hsorted).
  - vm_compute. reflexivity.
  - rewrite Hshow. split; [reflexivity|]. split; [reflexivity|exact Hsorted].
Defined.

(** The listing of that store: the undated task of priority 5 is before
    the dated one, although it was added after it. *)
Lemma listing_store_order :
  (λ x, (eprio x, name (etask x), due_date (etask x)))
    <$> sorted_tasks listing_store
  = [((-7)%Z, "first", None); ((-3)%Z, "root", None);
     (5%Z, "undated", None); (5%Z, "dated", Some "2024-01-01");
     (9%Z, "low", None)]
  ∧ (λ x, name (etask x)) <$> tasks listing_store
    = ["first"; "root"; "undated"; "low"; "dated"].
Proof. split; reflexivity. Qed.

(** ** complete_task *)









(** C5, at a store that three [add_task] calls build. No pending task is
    named "zzz", yet [complete_task("zzz")] does not leave the pending
    tasks as they were: the first pop moves ("c", 2) above ("b", 2), the
    comparison of the two dicts raises, and task "a", already popped, is
    lost with the local list that held it (the C routines leave the same
    two entries). *)
Lemma complete_task_unmatched_raises :
  add_all fresh tied_calls = (Ret tt, tied_store)
  ∧ ("zzz" ∉ pending_names tied_store)
  ∧ (complete_task tied_store "zzz").1 = Raise TypeError
  ∧ (λ x, name (etask x)) <$> tasks tied_store = ["a"; "b"; "c"]
  ∧ (λ x, name (etask x)) <$> tasks (complete_task tied_store "zzz").2
    = ["b"; "c"].
Proof. split_and!; compute_done. Qed.

(** ** Equal priorities *)

(** Three calls that return leave "b" and "c" pending, both with
    priority 2: the new entry is compared with its parent ("a", 1) only. *)
Lemma equal_priorities_reachable : ¬ equal_priorities_unreachable.
Proof.
  intros H.
  apply (H tied_calls tied_store 1 2
           (Entry TupleT 2 (Task "b" 2 [] None))
           (Entry TupleT 2 (Task "c" 2 [] None)));
    (reflexivity || discriminate).
Qed.

Lemma heappush_onto_one x y :
  container x = container y → eprio x = eprio y → etask x ≠ etask y →
  (heapq.heappush [x] y).1 = Raise TypeError.
Proof.
  intros Hc Hp Ht. cbn. unfold entry_lt.
  rewrite !bool_decide_eq_true_2 by done.
  by rewrite bool_decide_eq_false_2 by done.
Qed.

(** C4, as the code has it. On a new store, two [add_task] calls with
    distinct names and the same integer priority: the first returns and the
    second raises [TypeError], which [add_task] does not handle, because the
    sift compares the two [(priority, dict)] tuples and dicts have no order.
    Equal priorities are not thereby kept out of the store: the three calls
    of [tied_calls] all return, since the third entry is only compared with
    the root, and leave two tasks of priority 2 pending. On that store
    [complete_task] raises the same error while it pops; on the store of
    [tied_root_store] it pops everything and raises while it pushes the
    entries back. *)
Theorem tied_priorities_raise :
  (∀ n1 n2 p deps1 deps2 due1 due2,
     blank n1 = false → blank n2 = false → n1 ≠ n2 →
     ∃ st1,
       add_task fresh n1 (PyInt p) deps1 due1 = (Ret tt, st1)
       ∧ (add_task st1 n2 (PyInt p) deps2 due2).1 = Raise TypeError)
  ∧ (add_all fresh tied_calls = (Ret tt, tied_store)
     ∧ (λ x, (eprio x, name (etask x))) <$> tasks tied_store
       = [(1%Z, "a"); (2%Z, "b"); (2%Z, "c")])
  ∧ (complete_task tied_store "a").1 = Raise TypeError
  ∧ (∃ remaining_tasks st1,
       drain (length (tasks tied_root_store)) tied_root_store "a" [] false
       = (Ret (remaining_tasks, false), st1)
       ∧ (restore (print st1 (NotFound "a")) remaining_tasks).1
         = Raise TypeError
       ∧ (complete_task tied_root_store "a").1 = Raise TypeError).
Proof.
  split; [|split; [|split]].
  - intros n1 n2 p deps1 deps2 due1 due2 Hn1 Hn2 Hne.
    assert (truthy (strip n1) = true) as Ht1.
    { apply not_false_is_true. rewrite strip_blank. congruence. }
    assert (truthy (strip n2) = true) as Ht2.
    { apply not_false_is_true. rewrite strip_blank. congruence. }
    eexists. unfold add_task. rewrite Ht1, Ht2. simpl. split; [reflexivity|].
    pose proof (heappush_onto_one
      (Entry TupleT p (Task n1 p (default [] deps1) due1))
      (Entry TupleT p (Task n2 p (default [] deps2) due2))) as Hpush.
    destruct (heapq.heappush _ _) as [r heap]. simpl in Hpush.
    rewrite Hpush; [done..|]. simpl. congruence.
  - split; reflexivity.
  - compute_done.
  - do 2 eexists. split; [vm_compute; reflexivity|]. split; compute_done.
Qed.

Lemma tied_priorities_raise_witness :
  ∃ st1,
    add_task fresh "a" (PyInt 1) None None = (Ret tt, st1)
    ∧ (add_task st1 "b" (PyInt 1) None None).1 = Raise TypeError.
Proof.
  apply (proj1 tied_priorities_raise "a" "b" 1%Z None None None None).
  - reflexivity.
  - reflexivity.
  - discriminate.
Defined.

(** ** save_tasks and load_tasks: the round trip *)




(** C9, at a store that three [add_task] calls build and save. Constructing
    a manager from the file they wrote does not give the pending tasks
    back: the first step of [heapify] compares the entries of "b" and "c",
    which have the same priority, and the comparison of the two dicts
    raises [TypeError]. *)
Lemma load_after_save_raises :
  reachable tied_store
  ∧ disk tied_store = disk (save_tasks tied_store)
  ∧ (__init__ (disk (save_tasks tied_store)) []).1 = Raise TypeError.
Proof.
  split_and!; [|compute_done..].
  apply (add_all_reachable fresh tied_calls); [apply fresh_reachable|].
  reflexivity.
Qed.

(** * Further properties of the store *)

(** ** What a call leaves alone, whatever its outcome *)

Section frames.
Import heapq heapq_facts.

Lemma drain_frame fuel st nm rem found r st' :
  drain fuel st nm rem found = (r, st') →
  disk st' = disk st ∧ stdout st' = stdout st
  ∧ (completed_tasks st' = completed_tasks st
     ∨ nm ∈ pending_names st
       ∧ completed_tasks st' = {[nm]} ∪ completed_tasks st).
Proof.
  revert st rem found. induction fuel as [|fuel IH]; intros st rem found;
    simpl.
  { intros [= <- <-]. auto. }
  destruct (tasks st) as [|x0 l0] eqn:Hl; [intros [= <- <-]; auto|].
  rewrite <- Hl. clear Hl x0 l0.
  destruct (heappop (tasks st)) as [[x|e] heap] eqn:Hpop;
    [|intros [= <- <-]; auto].
  apply heappop_perm in Hpop.
  assert (∀ n, n ∈ (λ y, name (etask y)) <$> heap → n ∈ pending_names st)
    as Hsub.
  { intros n Hn. unfold pending_names. rewrite Hpop, fmap_cons. by right. }
  case_bool_decide as Hx; intros Hrec;
    apply IH in Hrec as (Hd & Ho & Hc); simpl in *;
    (split; [done|]); (split; [done|]).
  - right. split.
    { unfold pending_names. rewrite Hpop, fmap_cons, Hx. left. }
    destruct Hc as [->|[_ ->]]; [done|].
    by rewrite (assoc_L (∪)), (idemp_L (∪)).
  - destruct Hc as [->|[Hn ->]]; [by left|right]. split; [|done].
    by apply Hsub.
Qed.

Lemma restore_frame st rem r st' :
  restore st rem = (r, st') →
  disk st' = disk st ∧ stdout st' = stdout st
  ∧ completed_tasks st' = completed_tasks st.
Proof.
  revert st. induction rem as [|x rem IH]; intros st; simpl.
  { by intros [= <- <-]. }
  destruct (heappush (tasks st) x) as [[[]|e] heap];
    [|by intros [= <- <-]].
  intros (? & ? & ?)%IH. done.
Qed.

Lemma complete_task_frame st nm r st' :
  complete_task st nm = (r, st') →
  (completed_tasks st' = completed_tasks st
   ∨ nm ∈ pending_names st
     ∧ completed_tasks st' = {[nm]} ∪ completed_tasks st)
  ∧ (∀ e, r = Raise e → disk st' = disk st).
Proof.
  unfold complete_task.
  destruct (drain _ _ _ _ _) as [[[rem found]|e] st1] eqn:Hdrain;
    apply drain_frame in Hdrain as (Hd & Ho & Hc).
  - destruct (restore _ _) as [[[]|e] st2] eqn:Hres;
      apply restore_frame in Hres as (Hd2 & Ho2 & Hc2);
      intros [= <- <-]; simpl.
    + split; [|done]. rewrite Hc2. by destruct (negb found).
    + split; [rewrite Hc2; by destruct (negb found)|].
      intros _ _. rewrite Hd2. by destruct (negb found).
  - intros [= <- <-]. done.
Qed.

Lemma add_task_frame st nm prio deps due r st' :
  add_task st nm prio deps due = (r, st') →
  completed_tasks st' = completed_tasks st ∧ stdout st' = stdout st
  ∧ (∀ e, r = Raise e → disk st' = disk st).
Proof.
  unfold add_task. destruct (negb _); [by intros [= <- <-]|].
  destruct (negb _); [by intros [= <- <-]|].
  destruct (heappush _ _) as [[[]|e] heap]; by intros [= <- <-].
Qed.
End frames.

(** ** The pops of the drain come in priority order *)

Module drain_order.
Import heapq heapq_facts heap_order.

Local Arguments Nat.div : simpl never.
Local Arguments Nat.mul : simpl never.
Local Ltac Zify.zify_post_hook ::= Z.to_euclidean_division_equations.

(** [heappop] hands out the root, which is the least, and leaves a
    heap. *)
Lemma heappop_ordered heap x heap' :
  heap_ordered heap → heappop heap = (Ret x, heap') →
  heap_ordered heap' ∧ ∀ y, y ∈ heap' → (eprio x ≤ eprio y)%Z.
Proof.
  intros Hord Hpop. assert (Hperm := heappop_perm _ _ _ Hpop).
  revert Hpop. unfold heappop.
  destruct (last heap) as [lastelt|] eqn:Hlast; [|done].
  apply last_removelast in Hlast. revert Hlast.
  destruct (removelast heap) as [|returnitem tl]; simpl.
  { intros _ [= <- <-]. split; [by intros j y p _ _ ?|].
    intros y Hy. by apply elem_of_nil in Hy. }
  destruct (_siftup _ _) as [[[]|] heap1] eqn:Hup; [|done].
  intros Hheap [= <- <-]. split.
  - eapply (_siftup_ordered (lastelt :: tl) 0); [|done].
    intros j y p Hj Hpar Hy Hp.
    apply (Hord j); [done|lia|..]; rewrite Hheap.
    + destruct j as [|j']; [lia|]. simpl in *.
      rewrite lookup_app_l; [done|by eapply lookup_lt_Some].
    + destruct ((j - 1) / 2) as [|q] eqn:Hq; [lia|]. simpl in *.
      rewrite lookup_app_l; [done|by eapply lookup_lt_Some].
  - intros y Hy. apply (heap_ordered_root heap); [done|by rewrite Hheap|].
    rewrite Hperm. by right.
Qed.

(** An entry that is below none goes to the end and stays there. *)
Lemma heappush_last heap x heap' :
  (∀ y, y ∈ heap → (eprio y ≤ eprio x)%Z) →
  heappush heap x = (Ret tt, heap') → heap' = heap ++ [x].
Proof.
  intros Hle. unfold heappush, _siftdown.
  rewrite length_app, Nat.add_sub. simpl.
  rewrite lookup_app_r, Nat.sub_diag by done. simpl.
  assert (<[length heap := x]> (heap ++ [x]) = heap ++ [x]) as Hid.
  { apply list_insert_id. by rewrite lookup_app_r, Nat.sub_diag. }
  destruct (length heap) as [|n] eqn:Hn; simpl.
  { rewrite Hid. by intros [= <-]. }
  destruct ((heap ++ [x]) !! ((n - 0) / 2)) as [parent|] eqn:Hp; [|done].
  rewrite lookup_app_l in Hp by lia.
  apply list_elem_of_lookup_2, Hle in Hp.
  destruct (entry_lt x parent) as [[]|] eqn:Hlt; [| |done].
  - apply entry_lt_true in Hlt. lia.
  - rewrite Hid. by intros [= <-].
Qed.
End drain_order.

(** ** No routine invents an entry, whatever its outcome *)

Section members.
Import heapq.
Context (P : entry → Prop).

Lemma _siftdown_loop_Forall fuel heap newitem startpos pos :
  Forall P heap → P newitem →
  Forall P (_siftdown_loop fuel heap newitem startpos pos).2.
Proof.
  revert heap pos. induction fuel as [|fuel IH]; intros heap pos Hall Hnew;
    simpl; [by apply Forall_insert|].
  case_decide; [|by apply Forall_insert].
  destruct (heap !! _) as [parent|] eqn:Hp; [|done].
  destruct (entry_lt newitem parent) as [[]|]; simpl;
    [|by apply Forall_insert|done].
  apply IH; [|done]. apply Forall_insert; [done|].
  by eapply Forall_lookup_1.
Qed.

Lemma _siftdown_Forall heap startpos pos :
  Forall P heap → Forall P (_siftdown heap startpos pos).2.
Proof.
  intros Hall. unfold _siftdown.
  destruct (heap !! pos) as [newitem|] eqn:Hn; [|done].
  apply _siftdown_loop_Forall; [done|by eapply Forall_lookup_1].
Qed.

Lemma _siftup_loop_Forall fuel heap endpos pos :
  Forall P heap → Forall P (_siftup_loop fuel heap endpos pos).2.
Proof.
  revert heap pos. induction fuel as [|fuel IH]; intros heap pos Hall;
    simpl; [done|].
  case_decide; [|done].
  destruct (right_is_smaller _ _ _) as [take_right|]; [|done].
  destruct (heap !! _) as [child|] eqn:Hc; [|done].
  apply IH, Forall_insert; [done|by eapply Forall_lookup_1].
Qed.

Lemma _siftup_Forall heap pos :
  Forall P heap → Forall P (_siftup heap pos).2.
Proof.
  intros Hall. unfold _siftup.
  destruct (heap !! pos) as [newitem|] eqn:Hn; [|done].
  pose proof (_siftup_loop_Forall (length heap) heap (length heap) pos Hall)
    as Hloop.
  destruct (_siftup_loop _ _ _ _) as [[leaf|] heap1]; [|done].
  simpl in Hloop.
  apply _siftdown_Forall, Forall_insert; [done|].
  exact (Forall_lookup_1 _ _ _ _ Hall Hn).
Qed.

Lemma heappush_Forall heap item :
  Forall P heap → P item → Forall P (heappush heap item).2.
Proof.
  intros Hall Hitem. apply _siftdown_Forall, Forall_app.
  split; [done|by constructor].
Qed.

Lemma heappop_Forall heap :
  Forall P heap →
  Forall P (heappop heap).2 ∧ ∀ x, (heappop heap).1 = Ret x → P x.
Proof.
  intros Hall. unfold heappop.
  destruct (last heap) as [lastelt|] eqn:Hlast; [|done].
  apply last_removelast in Hlast. rewrite Hlast in Hall.
  apply Forall_app in Hall as [Hinit [Hlastelt _]%Forall_cons].
  destruct (removelast heap) as [|returnitem tl]; simpl.
  { split; [done|]. by intros x [= <-]. }
  apply Forall_cons in Hinit as [Hret Htl].
  pose proof (_siftup_Forall (lastelt :: tl) 0) as Hup.
  destruct (_siftup _ _) as [[[]|] heap1]; simpl in *;
    (split; [by apply Hup; constructor|]); [by intros x [= <-]|done].
Qed.

Lemma heapify_from_Forall idxs x :
  Forall P x → Forall P (heapify_from idxs x).2.
Proof.
  revert x. induction idxs as [|i idxs IH]; intros x Hall; simpl; [done|].
  pose proof (_siftup_Forall x i Hall) as Hup.
  destruct (_siftup x i) as [[[]|] x1]; [by apply IH|done].
Qed.

Hypothesis P_as_tuple : ∀ x, P x → P (as_tuple x).

Lemma drain_Forall fuel st nm rem found :
  Forall P (tasks st) → Forall P rem →
  Forall P (tasks (drain fuel st nm rem found).2)
  ∧ ∀ rem' found',
      (drain fuel st nm rem found).1 = Ret (rem', found') → Forall P rem'.
Proof.
  revert st rem found. induction fuel as [|fuel IH]; intros st rem found
    Hall Hrem; simpl.
  { split; [done|]. by intros ?? [= <- <-]. }
  destruct (tasks st) as [|x0 l0] eqn:Hl.
  { simpl. rewrite Hl. split; [done|]. by intros ?? [= <- <-]. }
  rewrite <- Hl in *. clear Hl x0 l0.
  destruct (heappop_Forall (tasks st) Hall) as [Hheap Hx].
  destruct (heappop (tasks st)) as [[x|e] heap]; simpl in *;
    [|split; [done|]; by intros].
  specialize (Hx x eq_refl).
  case_bool_decide; apply IH; try done.
  apply Forall_app. split; [done|].
  constructor; [by apply (P_as_tuple x)|constructor].
Qed.

Lemma restore_Forall st rem :
  Forall P (tasks st) → Forall P rem → Forall P (tasks (restore st rem).2).
Proof.
  revert st. induction rem as [|x rem IH]; intros st Hall Hrem; simpl;
    [done|].
  apply Forall_cons in Hrem as [Hx Hrem].
  pose proof (heappush_Forall (tasks st) x Hall Hx) as Hpush.
  destruct (heappush (tasks st) x) as [[[]|e] heap]; [by apply IH|done].
Qed.

Lemma complete_task_Forall st nm :
  Forall P (tasks st) → Forall P (tasks (complete_task st nm).2).
Proof.
  intros Hall. unfold complete_task.
  destruct (drain_Forall (length (tasks st)) st nm [] false Hall)
    as [Htasks Hrem]; [done|].
  destruct (drain _ _ _ _ _) as [[[rem found]|e] st1]; simpl in *; [|done].
  specialize (Hrem rem found eq_refl).
  pose proof (restore_Forall
                (if negb found then print st1 (NotFound nm) else st1) rem)
    as Hres.
  destruct (restore _ _) as [[[]|e] st2]; simpl in *;
    apply Hres; try done; by destruct (negb found).
Qed.
End members.

(** ** The list that complete_task rebuilds *)

Section rebuilt.
Import heapq heapq_facts heap_order drain_order.

Lemma drain_sorted fuel st nm rem found rem' found' st' :
  heap_ordered (tasks st) → StronglySorted prio_le rem →
  (∀ a b, a ∈ rem → b ∈ tasks st → prio_le a b) →
  drain fuel st nm rem found = (Ret (rem', found'), st') →
  StronglySorted prio_le rem'.
Proof.
  revert st rem found.
  induction fuel as [|fuel IH]; intros st rem found Hord Hrem Hle; simpl.
  { by intros [= <- <- <-]. }
  destruct (tasks st) as [|x0 l0] eqn:Hl; [by intros [= <- <- <-]|].
  rewrite <- Hl in *. clear Hl x0 l0.
  destruct (heappop (tasks st)) as [[x|] heap] eqn:Hpop; [|done].
  destruct (heappop_ordered _ _ _ Hord Hpop) as [Hord' Hmin].
  apply heappop_perm in Hpop.
  assert (∀ a b, a ∈ rem → b ∈ heap → prio_le a b) as Hle'.
  { intros a b Ha Hb. apply Hle; [done|]. rewrite Hpop. by right. }
  case_bool_decide; apply IH; simpl; try done.
  - apply StronglySorted_app. split_and!; [|done|repeat constructor].
    intros a b Ha ->%list_elem_of_singleton. apply (Hle a x Ha).
    rewrite Hpop. left.
  - intros a b [Ha| ->%list_elem_of_singleton]%elem_of_app Hb; [by apply Hle'|].
    by apply Hmin.
Qed.

Lemma restore_appends st rem st' :
  StronglySorted prio_le (tasks st ++ rem) →
  restore st rem = (Ret tt, st') → tasks st' = tasks st ++ rem.
Proof.
  revert st. induction rem as [|x rem IH]; intros st Hsorted; simpl.
  { intros [= <-]. by rewrite app_nil_r. }
  destruct (heappush (tasks st) x) as [[[]|] heap] eqn:Hpush; [|done].
  apply heappush_last in Hpush; last first.
  { intros y Hy. eapply (StronglySorted_app_1_elem_of _ _ _ y x Hsorted);
      [done|left]. }
  subst heap. intros Hrec. apply IH in Hrec; simpl in *.
  - by rewrite Hrec, <- app_assoc.
  - by rewrite <- app_assoc.
Qed.
End rebuilt.

(** ** Operations that return *)


Lemma add_task_returns_inv st nm prio deps due st' :
  add_task st nm prio deps due = (Ret tt, st') →
  blank nm = false ∧ isinstance_int prio = true
  ∧ tasks st'
    ≡ₚ Entry TupleT (int_value prio)
         (Task nm (int_value prio) (default [] deps) due) :: tasks st
  ∧ completed_tasks st' = completed_tasks st
  ∧ stdout st' = stdout st
  ∧ disk st' = Some (dumped st').
Proof.
  unfold add_task.
  destruct (truthy (strip nm)) eqn:Hnm; [|done]. simpl.
  destruct (isinstance_int prio) eqn:Hprio; [|done]. simpl.
  destruct (heapq.heappush _ _) as [[[]|] heap] eqn:Hpush; [|done].
  intros [= <-]. apply heapq_facts.heappush_perm in Hpush.
  split_and!; try done.
  apply not_true_is_false. rewrite <- strip_blank. congruence.
Qed.

(** X1. A call of [add_task] that returns had a name that is not blank
    and an [int] priority; it has put exactly one entry more among the
    pending ones, the tuple of the priority and of the task with the given
    name, priority, dependencies ([[]] for none) and due date; it has left
    the completed names and the terminal alone; and the file now holds the
    store as it is in memory. *)
Theorem add_task_inserts st nm prio deps due st' :
  add_task st nm prio deps due = (Ret tt, st') →
  blank nm = false ∧ isinstance_int prio = true
  ∧ tasks st'
    ≡ₚ Entry TupleT (int_value prio)
         (Task nm (int_value prio) (default [] deps) due) :: tasks st
  ∧ completed_tasks st' = completed_tasks st
  ∧ stdout st' = stdout st
  ∧ disk st' = Some (dumped st').
Proof. apply add_task_returns_inv. Qed.

Lemma add_task_inserts_witness :
  (λ x, (eprio x, name (etask x)))
    <$> tasks (add_task build_store "test" (PyInt 0) None None).2
  ≡ₚ (0%Z, "test") :: ((λ x, (eprio x, name (etask x))) <$> tasks build_store).
Proof.
  destruct (add_task_inserts build_store "test" (PyInt 0) None None
              (add_task build_store "test" (PyInt 0) None None).2)
    as (_ & _ & Hperm & _).
  - vm_compute. reflexivity.
  - rewrite Hperm. reflexivity.
Defined.



Section mixed.
Local Arguments Nat.div : simpl never.

(** A tuple pushed onto lists (or a list onto tuples) is appended and
    then fails its first comparison. *)
Lemma heappush_mixed heap item :
  heap ≠ [] → Forall (λ x, container x ≠ container item) heap →
  heapq.heappush heap item = (Raise TypeError, heap ++ [item]).
Proof.
  intros Hne Hmixed. unfold heapq.heappush, heapq._siftdown.
  rewrite length_app, Nat.add_sub. simpl.
  rewrite lookup_app_r, Nat.sub_diag by done. simpl.
  destruct (length heap) as [|n] eqn:Hn; [by destruct heap|]. simpl.
  destruct (lookup_lt_is_Some_2 heap ((n - 0) / 2)) as [parent Hp].
  { rewrite Hn. apply Nat.Div0.div_lt_upper_bound. lia. }
  rewrite lookup_app_l, Hp by (by eapply lookup_lt_Some).
  unfold entry_lt.
  rewrite bool_decide_eq_false_2; [done|].
  intros Heq. by apply (Forall_lookup_1 _ _ _ _ Hmixed Hp).
Qed.
End mixed.

(** X3. After a manager was constructed from a file with at least one
    pending task, [add_task] with valid arguments raises [TypeError]: the
    entries read back are lists, the new entry is a tuple, and the first
    comparison of the sift is between the two. The new entry has been
    appended to the pending list by then, and the file is not written. *)
Theorem add_task_after_load_raises tasks_key completed_tasks_key out st
    nm prio deps due :
  __init__ (Some (Json (Some tasks_key) completed_tasks_key)) out
  = (Ret tt, st) →
  tasks_key ≠ [] → blank nm = false → isinstance_int prio = true →
  add_task st nm prio deps due
  = (Raise TypeError,
     set_tasks st
       (tasks st ++ [Entry TupleT (int_value prio)
                       (Task nm (int_value prio) (default [] deps) due)])).
Proof.
  unfold __init__, load_tasks. simpl.
  destruct (heapq.heapify _) as [[[]|] heap] eqn:Hfy; [|done].
  intros [= <-] Hne Hnm Hprio. simpl.
  apply heapq_facts.heapify_perm in Hfy.
  unfold add_task.
  assert (truthy (strip nm) = true) as ->.
  { apply not_false_is_true. rewrite strip_blank. congruence. }
  rewrite Hprio. simpl. rewrite heappush_mixed; [done|..].
  - intros ->. apply Permutation_nil_l in Hfy. by destruct tasks_key.
  - rewrite Hfy. apply Forall_fmap, Forall_true. done.
Qed.

Lemma add_task_after_load_raises_witness :
  let st := (__init__ (disk build_store) []).2 in
  (add_task st "test" (PyInt 0) None None).1 = Raise TypeError
  ∧ disk (add_task st "test" (PyInt 0) None None).2 = disk build_store.
Proof.
  intros st.
  rewrite (add_task_after_load_raises
             (dump_entry <$> tasks build_store)
             (Some (elements (completed_tasks build_store))) [] st
             "test" (PyInt 0) None None).
  - split; reflexivity.
  - vm_compute. reflexivity.
  - discriminate.
  - reflexivity.
  - reflexivity.
Defined.



(** X5. Whatever its outcome, [complete_task(name)] changes the completed
    set in one way only: it adds [name], and only when a task of that name
    was pending. No other name gets in, and none ever leaves. *)
Theorem complete_task_completes_pending_name_only st nm :
  completed_tasks (complete_task st nm).2 = completed_tasks st
  ∨ nm ∈ pending_names st
    ∧ completed_tasks (complete_task st nm).2 = {[nm]} ∪ completed_tasks st.
Proof.
  destruct (complete_task st nm) as [r st'] eqn:Hc.
  by apply complete_task_frame in Hc as [? _].
Qed.











(** X11. After a [complete_task] that returns, on a store that the
    constructor and returning operations built, the pending list is in
    ascending order of priority from first to last, and every entry is a
    tuple: the drain pops in priority order and the pushes of the rebuild
    never have to move an entry. *)
Theorem complete_task_leaves_sorted_tuples st nm v st' :
  reachable st → complete_task st nm = (Ret v, st') →
  StronglySorted prio_le (tasks st')
  ∧ Forall (λ x, container x = TupleT) (tasks st').
Proof.
  intros Hord%reachable_ordered Hc. split.
  - revert Hc. unfold complete_task.
    destruct (drain _ _ _ _ _) as [[[rem found]|] st1] eqn:Hdrain; [|done].
    assert (StronglySorted prio_le rem) as Hrem.
    { eapply drain_sorted; [exact Hord|constructor| |exact Hdrain].
      intros a b Ha. by apply elem_of_nil in Ha. }
    apply drain_spec in Hdrain as (Ht & _); [|done].
    destruct (restore _ _) as [[[]|] st2] eqn:Hres; [|done].
    intros [= <- <-]. simpl.
    apply restore_appends in Hres.
    + rewrite Hres. by destruct (negb found); simpl; rewrite Ht.
    + by destruct (negb found); simpl; rewrite Ht.
  - apply complete_task_returns in Hc as (_ & Ht & _).
    rewrite Ht. apply Forall_fmap, Forall_true. done.
Qed.

Lemma complete_task_leaves_sorted_tuples_witness :
  (λ x, name (etask x)) <$> tasks shuffled_store = ["a"; "b"; "c"; "d"; "e"]
  ∧ (λ x, name (etask x)) <$> tasks (complete_task shuffled_store "c").2
    = ["a"; "b"; "d"; "e"]
  ∧ StronglySorted prio_le (tasks (complete_task shuffled_store "c").2).
Proof.
  split; [reflexivity|]. split; [reflexivity|].
  apply (complete_task_leaves_sorted_tuples shuffled_store "c" PyNone).
  - apply (add_all_reachable fresh shuffled_calls); [apply fresh_reachable|].
    vm_compute. reflexivity.
  - vm_compute. reflexivity.
Defined.

(** * The menu *)

(** ** What [main] makes of the answers *)

Lemma rstrip_idemp s : rstrip (rstrip s) = rstrip s.
Proof.
  induction s as [|c s IH]; simpl; [done|].
  destruct (rstrip s) as [|c' r] eqn:Hr.
  - destruct (isspace c) eqn:Hc; simpl; [done|]. by rewrite Hc.
  - simpl in *. by rewrite IH.
Qed.

Lemma rstrip_head c s :
  isspace c = false → ∃ r, rstrip (String c s) = String c r.
Proof.
  intros Hc. simpl. destruct (rstrip s); [rewrite Hc|]; eauto.
Qed.

Lemma lstrip_head s :
  lstrip s = EmptyString
  ∨ ∃ c r, lstrip s = String c r ∧ isspace c = false.
Proof.
  induction s as [|c s IH]; simpl; [by left|].
  destruct (isspace c) eqn:Hc; [done|]. right. eauto.
Qed.

(** What [strip] returns is empty or has no white space at either end:
    stripping it again changes nothing. *)
Lemma strip_head s :
  strip s = EmptyString ∨ ∃ c r, strip s = String c r ∧ isspace c = false.
Proof.
  unfold strip. destruct (lstrip_head s) as [->|(c & r & -> & Hc)];
    [by left|right].
  destruct (rstrip_head c r Hc) as [r' ->]. eauto.
Qed.

Lemma strip_idemp s : strip (strip s) = strip s.
Proof.
  destruct (strip_head s) as [->|(c & r & Hs & Hc)]; [done|].
  rewrite Hs. unfold strip at 1. simpl. rewrite Hc.
  rewrite <- Hs. unfold strip. apply rstrip_idemp.
Qed.

Lemma typed_dependencies_Forall answer :
  Forall (λ dep, blank dep = false ∧ strip dep = dep)
    (typed_dependencies answer).
Proof.
  unfold typed_dependencies. apply Forall_fmap, Forall_forall.
  intros piece [_ Hpiece]%list_elem_of_In%filter_In. simpl.
  split; [|apply strip_idemp].
  destruct (strip_head piece) as [Hs|(c & r & Hs & Hc)];
    rewrite Hs in *; [done|]. simpl. by rewrite Hc.
Qed.

(** X12. The dependencies that [main] passes to [add_task] are clean,
    whatever was typed: none is blank, and none has white space at either
    end. Empty pieces between commas and pieces of white space only are
    dropped. *)
Theorem typed_dependencies_clean answer :
  Forall (λ dep, blank dep = false ∧ strip dep = dep)
    (typed_dependencies answer).
Proof. apply typed_dependencies_Forall. Qed.

Lemma typed_due_date_not_empty answer :
  typed_due_date answer ≠ Some EmptyString.
Proof. unfold typed_due_date. by destruct answer. Qed.

(** ** Rounds of the loop, one statement at a time *)

Lemma add_task_Forall (P : entry → Prop) st nm prio deps due :
  Forall P (tasks st) →
  (blank nm = false → isinstance_int prio = true →
   P (Entry TupleT (int_value prio)
        (Task nm (int_value prio) (default [] deps) due))) →
  Forall P (tasks (add_task st nm prio deps due).2).
Proof.
  intros Hall Hnew. unfold add_task.
  destruct (truthy (strip nm)) eqn:Hnm; [|done]. simpl.
  destruct (isinstance_int prio) eqn:Hprio; [|done]. simpl.
  assert (blank nm = false) as Hblank.
  { apply not_true_is_false. rewrite <- strip_blank. congruence. }
  pose proof (heappush_Forall P (tasks st) _ Hall (Hnew Hblank eq_refl))
    as Hpush.
  by destruct (heapq.heappush _ _) as [[[]|] heap].
Qed.

Lemma foldl_echo c ls :
  foldl echo c ls = Console (manager c) (stdin c) (terminal c ++ ls).
Proof.
  revert c. induction ls as [|l ls IH]; intros c; simpl.
  { rewrite app_nil_r. by destruct c. }
  rewrite IH. simpl. by rewrite <- app_assoc.
Qed.

(** A relation between the console before and after that every statement
    of a round respects is respected by the rounds. *)
Section rounds.
Context (int_max_str_digits : nat).
Context (R : relation console) `{!PreOrder R}.

Hypothesis R_console :
  ∀ c rest t, rest `suffix_of` stdin c → R c (Console (manager c) rest t).
Hypothesis R_add_task :
  ∀ c nm z answer1 answer2 t,
    R c (Console (add_task (manager c) nm (PyInt z)
                    (Some (typed_dependencies answer1))
                    (typed_due_date answer2)).2 (stdin c) t).
Hypothesis R_complete_task :
  ∀ c nm t, R c (Console (complete_task (manager c) nm).2 (stdin c) t).
Hypothesis R_show_tasks :
  ∀ c t, R c (Console (show_tasks (manager c)).2 (stdin c) t).
Hypothesis R_next_task :
  ∀ c t, R c (Console (next_task (manager c)).2 (stdin c) t).

Local Abbreviation moves m := (∀ c, R c (m c).2).

Lemma moves_ret {A} (a : A) : moves (io_ret a).
Proof. intros c. simpl. reflexivity. Qed.

Lemma moves_bind {A B} (m : io A) (k : A → io B) :
  moves m → (∀ a, moves (k a)) → moves (m ≫= k).
Proof.
  intros Hm Hk c. unfold mbind, io_mbind, io_bind.
  specialize (Hm c). destruct (m c) as [[a|e] c']; simpl in *; [|done].
  etrans; [exact Hm|apply Hk].
Qed.

Lemma moves_input p : moves (input p).
Proof.
  intros c. unfold input. destruct (stdin c) as [|answer rest] eqn:Hin;
    simpl; apply R_console; rewrite Hin; [done|].
  by apply suffix_cons_r.
Qed.

Lemma moves_lift {A} (r : res A) : moves (lift r).
Proof. intros c. unfold lift. destruct r; simpl; reflexivity. Qed.

Lemma moves_say l : moves (say l).
Proof. intros c. simpl. by apply R_console. Qed.

Lemma moves_call {A} (method : state → res A * state) :
  (∀ c t, R c (Console (method (manager c)).2 (stdin c) t)) →
  moves (call_manager method).
Proof.
  intros Hm c. unfold call_manager. specialize (Hm c).
  destruct (method (manager c)) as [[a|e] st]; simpl in *; apply Hm.
Qed.

Lemma chosen_moves : moves (chosen int_max_str_digits).
Proof.
  unfold chosen.
  apply moves_bind; [apply moves_input|intros answer].
  apply moves_bind; [apply moves_lift|intros choice].
  repeat case_bool_decide;
    repeat first
      [ apply moves_ret | apply moves_input | apply moves_lift
      | apply moves_say
      | apply moves_call; intros c t;
        first [apply R_add_task | apply R_complete_task
              | apply R_show_tasks | apply R_next_task]
      | apply moves_bind; [|intros ?]
      | match goal with |- moves (match ?x with _ => _ end) => destruct x end ].
Qed.

Lemma main_iteration_moves c : R c (main_iteration int_max_str_digits c).2.
Proof.
  unfold main_iteration. rewrite foldl_echo.
  etrans; [by apply (R_console c (stdin c) (terminal c ++ menu))|].
  pose proof (chosen_moves (Console (manager c) (stdin c) (terminal c ++ menu)))
    as Hc.
  destruct (chosen _ _) as [[ctl|e] c']; simpl in *; [done|].
  etrans; [exact Hc|by apply R_console].
Qed.

Lemma main_loop_moves rounds c :
  R c (main_loop int_max_str_digits rounds c).2.
Proof.
  revert c. induction rounds as [|rounds IH]; intros c; simpl; [done|].
  pose proof (main_iteration_moves c) as Hc.
  destruct (main_iteration _ _) as [[] c']; simpl in *; [|done].
  etrans; [exact Hc|apply IH].
Qed.
End rounds.

(** ** What the rounds keep *)

Lemma tidy_as_tuple x : tidy x → tidy (as_tuple x).
Proof. intros Hx. exact Hx. Qed.

Global Instance keeps_tidy_preorder : PreOrder keeps_tidy.
Proof.
  split; [intros c Hc; exact Hc|].
  intros c1 c2 c3 H12 H23 H1. by apply H23, H12.
Qed.

(** X13. Whatever is typed, every pending task of a session that [main]
    starts without a file is tidy after any number of rounds: its name is
    not blank, its heap key is its priority, none of its dependencies is
    blank or has white space around it, and its due date is absent or not
    empty. Rounds keep a store tidy that was tidy, calls that raise
    included. *)
Theorem main_keeps_tasks_tidy int_max_str_digits rounds :
  (∀ c, Forall tidy (tasks (manager c)) →
        Forall tidy
          (tasks (manager (main_loop int_max_str_digits rounds c).2)))
  ∧ (∀ keyboard ctl c,
       main int_max_str_digits None keyboard rounds = Ret (ctl, c) →
       Forall tidy (tasks (manager c))).
Proof.
  assert (∀ c, Forall tidy (tasks (manager c)) →
               Forall tidy
                 (tasks (manager (main_loop int_max_str_digits rounds c).2)))
    as Hloop.
  { intros c. apply (main_loop_moves int_max_str_digits keeps_tidy);
      unfold keeps_tidy; simpl.
    - done.
    - intros c' nm z answer1 answer2 _ Hall.
      apply add_task_Forall; [done|]. intros Hnm _.
      split_and!; [done..|apply typed_dependencies_Forall
                  |apply typed_due_date_not_empty].
    - intros c' nm _ Hall.
      apply complete_task_Forall; [apply tidy_as_tuple|done].
    - intros c' _. unfold show_tasks. simpl. by rewrite foldl_print.
    - intros c' _. unfold next_task.
      destruct (tasks (manager c')) eqn:Ht; simpl; [by rewrite Ht|].
      destruct (is_executable _ _); simpl; by rewrite ?Ht. }
  split; [exact Hloop|].
  intros keyboard ctl c [= Hmain].
  pose proof (Hloop (Console (State [] ∅ None []) keyboard [])) as Htidy.
  rewrite Hmain in Htidy. apply Htidy. constructor.
Qed.

Lemma main_keeps_tasks_tidy_witness :
  let keyboard :=
    ["1"; "  ship  "; " 3 "; "build, ,test ,,"; ""; "1"; "x"; "y"; "5"] in
  ∃ c, main 4300 None keyboard 9 = Ret (Break, c)
       ∧ etask <$> tasks (manager c)
         = [Task "  ship  " 3 ["build"; "test"] None]
       ∧ Forall tidy (tasks (manager c)).
Proof.
  intros keyboard. eexists. split; [vm_compute; reflexivity|].
  split; [reflexivity|].
  apply (proj2 (main_keeps_tasks_tidy 4300 9) keyboard Break).
  vm_compute. reflexivity.
Defined.

Lemma StronglySorted_impl_elem {A} (R1 R2 : relation A) l :
  (∀ x y, x ∈ l → y ∈ l → R1 x y → R2 x y) →
  StronglySorted R1 l → StronglySorted R2 l.
Proof.
  intros Himpl Hsorted. induction Hsorted as [|x l Hl IH Hx]; [constructor|].
  constructor.
  - apply IH. intros a b Ha Hb. apply Himpl; by right.
  - apply Forall_forall. intros y Hy.
    apply Himpl; [left|by right|]. by eapply Forall_forall in Hx.
Qed.

(** X14. In a tidy store, as the menu builds them, [show_tasks] lists the
    tasks of equal priority with the undated ones strictly first: no task
    with a due date comes before a task without. *)
Theorem tidy_listing_null_first st :
  Forall tidy (tasks st) →
  StronglySorted listing_le_strict (sorted_tasks st).
Proof.
  intros Htidy.
  apply (StronglySorted_impl_elem listing_le); [|apply sorted_tasks_sorted].
  intros x y Hx _ [Hlt|[Heq Hdue]]; [by left|right]. split; [done|].
  rewrite sorted_tasks_perm in Hx.
  eapply Forall_forall in Htidy as (_ & _ & _ & Hne); [|exact Hx].
  destruct (due_date (etask x)) as [s|], (due_date (etask y)); simpl in *;
    try done. by subst s.
Qed.

Lemma tidy_listing_null_first_witness :
  StronglySorted listing_le_strict (sorted_tasks listing_store).
Proof.
  apply tidy_listing_null_first.
  repeat constructor; discriminate.
Defined.

(** ** How the loop ends, and when it cannot *)

Global Instance reads_on_preorder : PreOrder reads_on.
Proof.
  split; [by intros c; unfold reads_on|].
  intros c1 c2 c3 H12 H23. unfold reads_on in *. by etrans.
Qed.

Global Instance keeps_completed_preorder : PreOrder keeps_completed.
Proof.
  split; [by intros c; unfold keeps_completed|].
  intros c1 c2 c3 H12 H23. unfold keeps_completed in *. by etrans.
Qed.

Lemma main_loop_reads_on int_max_str_digits rounds c :
  reads_on c (main_loop int_max_str_digits rounds c).2.
Proof.
  apply (main_loop_moves int_max_str_digits reads_on);
    unfold reads_on; simpl; done.
Qed.








(** X16. At the end of the input the loop cannot end: [input] raises
    [EOFError], which the [except Exception] of [main] catches, so every
    further round prints the menu, the option prompt and the error line,
    and goes on, with the store as it was. *)
Theorem main_spins_at_end_of_input int_max_str_digits rounds st t :
  main_loop int_max_str_digits rounds (Console st [] t)
  = (Continue,
     Console st []
       (t ++ mjoin (replicate rounds
                      (menu ++ [Prompt AskOption; ErrorLine EOFError])))).
Proof.
  revert t. induction rounds as [|rounds IH]; intros t; simpl.
  { by rewrite app_nil_r. }
  unfold echo. simpl. rewrite IH. by rewrite <- !app_assoc.
Qed.

(** X17. No round takes a name out of the completed set: whatever is typed
    and whatever the calls raise, the names completed before any number of
    rounds are completed after them. *)
Theorem main_keeps_completed int_max_str_digits rounds c :
  completed_tasks (manager c)
  ⊆ completed_tasks (manager (main_loop int_max_str_digits rounds c).2).
Proof.
  apply (main_loop_moves int_max_str_digits keeps_completed);
    unfold keeps_completed; simpl.
  - done.
  - intros c' nm z answer1 answer2 _.
    destruct (add_task _ _ _ _ _) as [r st'] eqn:Hadd.
    apply add_task_frame in Hadd as (Hsame & _). simpl. by rewrite Hsame.
  - intros c' nm _.
    destruct (complete_task _ _) as [r st'] eqn:Hcall.
    apply complete_task_frame in Hcall as ([Hsame|[_ Hmore]] & _); simpl.
    + by rewrite Hsame.
    + rewrite Hmore. apply union_subseteq_r.
  - intros c' _. unfold show_tasks. simpl. by rewrite foldl_print.
  - intros c' _. unfold next_task.
    destruct (tasks (manager c')); simpl; [done|].
    by destruct (is_executable _ _).
Qed.

(** X18. Only the options 1 and 3 touch the store: a round whose answer is
    not read as 1 or 3 by [int], answers that [int] rejects and the end of
    the input included, leaves the pending tasks, the completed set and
    the file as they were, and reads no line but that answer. *)
Theorem other_options_keep_store int_max_str_digits c :
  (∀ answer, head (stdin c) = Some answer →
             int int_max_str_digits answer ≠ Ret 1%Z
             ∧ int int_max_str_digits answer ≠ Ret 3%Z) →
  let c' := (main_iteration int_max_str_digits c).2 in
  tasks (manager c') = tasks (manager c)
  ∧ completed_tasks (manager c') = completed_tasks (manager c)
  ∧ disk (manager c') = disk (manager c)
  ∧ stdin c' = tail (stdin c).
Proof.
  intros Hother c'.
  destruct (main_iteration int_max_str_digits c) as [ctl c1] eqn:Hround.
  subst c'. simpl. revert Hround.
  unfold main_iteration. rewrite foldl_echo.
  unfold chosen, mbind, io_mbind, io_bind at 1, input. simpl.
  destruct (stdin c) as [|answer rest]; simpl; [by intros [= <- <-]|].
  destruct (Hother answer eq_refl) as [Hadd Hcomplete].
  unfold io_bind at 1, lift at 1.
  destruct (int _ answer) as [choice|e]; simpl; [|by intros [= <- <-]].
  repeat case_bool_decide; try congruence.
  - unfold io_bind, call_manager, show_tasks. simpl.
    rewrite foldl_print. by intros [= <- <-].
  - unfold io_bind, call_manager, next_task. simpl.
    destruct (tasks (manager c)) as [|x heap] eqn:Htasks; simpl.
    { intros [= <- <-]. simpl. by rewrite Htasks. }
    destruct (is_executable _ _); simpl; intros [= <- <-]; simpl;
      by rewrite Htasks.
  - by intros [= <- <-].
  - by intros [= <- <-].
Qed.

Lemma other_options_keep_store_witness :
  let c := Console shuffled_store ["4"; "1"] [] in
  let c' := (main_iteration 4300 c).2 in
  tasks (manager c') = tasks shuffled_store
  ∧ completed_tasks (manager c') = completed_tasks shuffled_store
  ∧ disk (manager c') = disk shuffled_store
  ∧ stdin c' = ["1"].
Proof.
  apply (other_options_keep_store 4300
           (Console shuffled_store ["4"; "1"] [])).
  intros answer [= <-]. split; vm_compute; discriminate.
Defined.
